(** * Option pricing: binomial lattice and Monte Carlo estimator

    A shallow embedding of [binomial_model.py] and [monte_carlo.py].

    Number model.  A Python [float] is read as a real number ([R]) and a
    Python [int] as an integer ([Z]); loop indices produced by [range] are
    naturals.  Arithmetic is therefore exact: rounding, overflow to
    infinity, underflow to zero and NaN are outside the model.  The one
    arithmetic failure that the model keeps is the one Python signals by an
    exception on finite operands, division by a zero divisor
    ([ZeroDivisionError]).

    Exceptions.  Every [raise] of the sources is a [ValueError] carrying a
    message; the model keeps the message, so the place that raised it can be
    told from the result.  Two more [ValueError]s come from numpy, following
    its documented contract: [np.random.default_rng] refuses a negative
    seed, and [np.asarray] refuses a ragged sequence.  A computation that
    may raise lives in the error monad [exn + A] of ExtLib ([inl] is the
    raised exception). *)

From Stdlib Require Import Reals Lra Lia ZArith List String Bool.
From ExtLib Require Import Structures.Monad Structures.MonadExc Data.Monads.EitherMonad.
Import ListNotations.
Import MonadNotation.

Local Open Scope monad_scope.
Local Open Scope R_scope.

(** ** Python values and exceptions *)

Inductive exn : Type :=
| ValueError (msg : string)
| ZeroDivisionError.

Notation py := (sum exn).

(** [x <= y] and [x < y] on floats, as booleans. *)
Definition Rleb (x y : R) : bool := if Rle_dec x y then true else false.
Definition Rltb (x y : R) : bool := if Rlt_dec x y then true else false.

(** [x / y] on floats: raises on a zero divisor. *)
Definition float_div (x y : R) : py R :=
  if Req_dec_T y 0 then raise ZeroDivisionError else ret (x / y).

(** [values[j]] for an index that the loops keep in range: the default is
    never read by the code below, since every index is below the length of
    the list it reads (see [european_round_length], [american_round_length]
    and [simulate_paths_shape]). *)
Definition item (values : list R) (j : nat) : R := nth j values 0.

(** [row[k] = x] for [k] in range (Python raises [IndexError] otherwise;
    the loops below never leave the range). *)
Fixpoint set_item (row : list R) (k : nat) (x : R) : list R :=
  match row, k with
  | [], _ => []
  | _ :: tl, O => x :: tl
  | hd :: tl, S k' => hd :: set_item tl k' x
  end.

(** Apply [f] to every row of a matrix together with the row's index. *)
Fixpoint mapi_from (start : nat) (f : nat -> list R -> list R) (m : list (list R))
  : list (list R) :=
  match m with
  | [] => []
  | row :: rest => f start row :: mapi_from (S start) f rest
  end.

Definition mapi (f : nat -> list R -> list R) (m : list (list R)) : list (list R) :=
  mapi_from 0 f m.

(** The two loops of [binomial_option_price] walk the levels of the lattice
    downwards; [descend] is their common shape. *)
Fixpoint descend (f : nat -> list R -> list R) (n : nat) (values : list R) : list R :=
  match n with
  | O => values
  | S m => descend f m (f m values)
  end.

(** ** binomial_model.py *)

Module binomial_model.

Record BinomialParameters : Type := {
  spot : R;
  strike : R;
  rate : R;
  time : R;
  volatility : R;
  steps : Z;
  dividend_yield : R;
  option_type : string;
  exercise : string
}.

Definition msg_steps : string := "Number of steps must be positive".
Definition msg_spot_strike : string := "Spot and strike must be positive".
Definition msg_volatility : string := "Volatility must be non-negative".
Definition msg_time : string := "Time to maturity must be positive".
Definition msg_option_type : string := "option_type must be 'call' or 'put'".
Definition msg_exercise : string := "exercise must be 'european' or 'american'".
Definition msg_probability : string :=
  "Risk-neutral probability outside [0, 1]; adjust inputs or steps".

(** [BinomialParameters.validate] *)
Definition validate (self : BinomialParameters) : py unit :=
  if (steps self <=? 0)%Z then raise (ValueError msg_steps)
  else if Rleb (spot self) 0 || Rleb (strike self) 0 then raise (ValueError msg_spot_strike)
  else if Rltb (volatility self) 0 then raise (ValueError msg_volatility)
  else if Rleb (time self) 0 then raise (ValueError msg_time)
  else if negb (String.eqb (option_type self) "call" || String.eqb (option_type self) "put")
    then raise (ValueError msg_option_type)
  else if negb (String.eqb (exercise self) "european" || String.eqb (exercise self) "american")
    then raise (ValueError msg_exercise)
  else ret tt.

(** [_payoff] *)
Definition _payoff (option_type : string) : R -> R -> R :=
  if String.eqb option_type "call"
  then fun price strike => Rmax (price - strike) 0
  else fun price strike => Rmax (strike - price) 0.

(** One pass of the European loop body (line 96): the list comprehension
    over [range(len(values) - 1)]. *)
Definition european_round (disc prob : R) (values : list R) : list R :=
  map (fun j => disc * (prob * item values (j + 1) + (1 - prob) * item values j))
      (seq 0 (List.length values - 1)).

(** One pass of the American loop body (lines 101-107) at level [step]. *)
Definition american_round (spot strike up down disc prob : R)
    (payoff_fn : R -> R -> R) (values : list R) (step : nat) : list R :=
  map (fun j =>
         let continuation := disc * (prob * item values (j + 1) + (1 - prob) * item values j) in
         let node_price := spot * up ^ j * down ^ (step - j) in
         let exercise_val := payoff_fn node_price strike in
         Rmax continuation exercise_val)
      (seq 0 (step + 1)).

(** [binomial_option_price] *)
Definition binomial_option_price (params : BinomialParameters) : py R :=
  validate params ;;
  dt <- float_div (time params) (IZR (steps params)) ;;
  let up := exp (volatility params * sqrt dt) in
  down <- float_div 1 up ;;
  let growth := exp ((rate params - dividend_yield params) * dt) in
  prob <- float_div (growth - down) (up - down) ;;
  if negb (Rleb 0 prob && Rleb prob 1) then raise (ValueError msg_probability)
  else
    let disc := exp (- rate params * dt) in
    let payoff_fn := _payoff (option_type params) in
    let n := Z.to_nat (steps params) in
    let prices := map (fun j => spot params * up ^ j * down ^ (n - j)) (seq 0 (n + 1)) in
    let values := map (fun price => payoff_fn price (strike params)) prices in
    if String.eqb (exercise params) "european" then
      ret (item (Nat.iter n (european_round disc prob) values) 0)
    else
      ret (item (fold_left
                   (american_round (spot params) (strike params) up down disc prob payoff_fn)
                   (rev (seq 0 n)) values) 0).

(** *** The quantities derived at lines 78-87, named for the statements *)

Definition lattice_dt (params : BinomialParameters) : R :=
  time params / IZR (steps params).

Definition lattice_up (params : BinomialParameters) : R :=
  exp (volatility params * sqrt (lattice_dt params)).

Definition lattice_down (params : BinomialParameters) : R := 1 / lattice_up params.

Definition lattice_growth (params : BinomialParameters) : R :=
  exp ((rate params - dividend_yield params) * lattice_dt params).

Definition lattice_disc (params : BinomialParameters) : R :=
  exp (- rate params * lattice_dt params).

(** The value bound to [prob] at line 82, when that division returns. *)
Definition derived_probability (params : BinomialParameters) : option R :=
  if Req_dec_T (lattice_up params - lattice_down params) 0 then None
  else Some ((lattice_growth params - lattice_down params)
             / (lattice_up params - lattice_down params)).

(** The derived risk-neutral probability exists and lies in [0,1]. *)
Definition calibrated (params : BinomialParameters) : Prop :=
  exists prob, derived_probability params = Some prob /\ 0 <= prob <= 1.

(** The same parameters with another exercise style or option kind. *)
Definition with_exercise (style : string) (params : BinomialParameters)
  : BinomialParameters :=
  {| spot := spot params; strike := strike params; rate := rate params;
     time := time params; volatility := volatility params; steps := steps params;
     dividend_yield := dividend_yield params; option_type := option_type params;
     exercise := style |}.

Definition with_option_type (kind : string) (params : BinomialParameters)
  : BinomialParameters :=
  {| spot := spot params; strike := strike params; rate := rate params;
     time := time params; volatility := volatility params; steps := steps params;
     dividend_yield := dividend_yield params; option_type := kind;
     exercise := exercise params |}.

(** The list [values] after line 92 and the value returned at line 97 or
    109, in terms of the derived quantities. *)
Definition terminal_values (params : BinomialParameters) : list R :=
  let n := Z.to_nat (steps params) in
  map (fun price => _payoff (option_type params) price (strike params))
      (map (fun j => spot params * lattice_up params ^ j * lattice_down params ^ (n - j))
           (seq 0 (n + 1))).

Definition lattice_root (params : BinomialParameters) (prob : R) : R :=
  let n := Z.to_nat (steps params) in
  if String.eqb (exercise params) "european" then
    item (Nat.iter n (european_round (lattice_disc params) prob) (terminal_values params)) 0
  else
    item (fold_left
            (american_round (spot params) (strike params) (lattice_up params)
               (lattice_down params) (lattice_disc params) prob
               (_payoff (option_type params)))
            (rev (seq 0 n)) (terminal_values params)) 0.

(** The messages raised by [validate], as opposed to the calibration
    failure raised at line 85. *)
Definition is_validation_error (e : exn) : Prop :=
  In e [ValueError msg_steps; ValueError msg_spot_strike; ValueError msg_volatility;
        ValueError msg_time; ValueError msg_option_type; ValueError msg_exercise].

Definition is_calibration_error (e : exn) : Prop := e = ValueError msg_probability.

(** *** Invariants of the backward induction *)

(** Level [m] of the lattice holds [m + 1] values. *)
Definition dominated (m : nat) (v w : list R) : Prop :=
  List.length v = S m /\ List.length w = S m /\
  forall j, (j <= m)%nat -> item v j <= item w j.

Definition nonnegative (m : nat) (v : list R) : Prop :=
  List.length v = S m /\ forall j, (j <= m)%nat -> 0 <= item v j.

(** At level [m] the call values exceed the put values by the forward of
    the node price less the discounted strike. *)
Definition parity_level (spot0 strike0 up down disc growth : R) (n m : nat)
    (vc vp : list R) : Prop :=
  (m <= n)%nat /\ List.length vc = S m /\ List.length vp = S m /\
  forall j, (j <= m)%nat ->
    item vc j - item vp j =
    (disc * growth) ^ (n - m) * (spot0 * up ^ j * down ^ (m - j))
    - disc ^ (n - m) * strike0.

(** With no dividend and a non-negative rate, a call value at level [m] is
    at least zero and at least the node price less the strike discounted
    over the remaining [n - m] steps. *)
Definition call_floor (spot0 strike0 up down disc : R) (n m : nat) (v : list R)
  : Prop :=
  (m <= n)%nat /\ List.length v = S m /\
  forall j, (j <= m)%nat ->
    0 <= item v j /\
    spot0 * up ^ j * down ^ (m - j) - disc ^ (n - m) * strike0 <= item v j.

Definition same_call_floor (spot0 strike0 up down disc : R) (n m : nat)
    (v w : list R) : Prop :=
  v = w /\ call_floor spot0 strike0 up down disc n m v.

(** Sample parameter sets: one step of a lattice with unit volatility and
    no drift, and a market without volatility. *)
Definition one_step (kind style : string) : BinomialParameters :=
  {| spot := 100; strike := 100; rate := 0; time := 1; volatility := 1; steps := 1;
     dividend_yield := 0; option_type := kind; exercise := style |}.

(** One step with a negative rate and no dividend. *)
Definition negative_rate (style : string) : BinomialParameters :=
  {| spot := 3; strike := 1; rate := - 0.5; time := 1; volatility := 1; steps := 1;
     dividend_yield := 0; option_type := "call"; exercise := style |}.

Definition flat_market : BinomialParameters :=
  {| spot := 100; strike := 100; rate := 0.05; time := 1; volatility := 0; steps := 1;
     dividend_yield := 0; option_type := "call"; exercise := "european" |}.

End binomial_model.

(** ** monte_carlo.py *)

Module monte_carlo.

Record MonteCarloParameters : Type := {
  spot : R;
  rate : R;
  time : R;
  volatility : R;
  paths : Z;
  steps : Z;
  dividend_yield : R;
  seed : option Z
}.

Definition msg_spot : string := "Spot must be positive".
Definition msg_volatility : string := "Volatility must be non-negative".
Definition msg_time : string := "Time to maturity must be positive".
Definition msg_paths : string := "Number of paths must be positive".
Definition msg_steps : string := "Number of steps must be positive".
Definition msg_shape : string := "Payoff function must return one value per path".

(** Messages of the two errors that numpy itself raises on the way:
    [np.random.default_rng] on a negative seed, and [np.asarray] with
    [dtype=float] on a ragged sequence (numpy appends to the latter the
    shape it had detected). *)
Definition msg_seed : string := "expected non-negative integer".
Definition msg_sequence : string := "setting an array element with a sequence.".

(** [MonteCarloParameters.validate] *)
Definition validate (self : MonteCarloParameters) : py unit :=
  if Rleb (spot self) 0 then raise (ValueError msg_spot)
  else if Rltb (volatility self) 0 then raise (ValueError msg_volatility)
  else if Rleb (time self) 0 then raise (ValueError msg_time)
  else if (paths self <=? 0)%Z then raise (ValueError msg_paths)
  else if (steps self <=? 0)%Z then raise (ValueError msg_steps)
  else ret tt.

(** [np.empty((rows, cols))]: a matrix whose entries are whatever the
    allocator left there, [junk i k] at row [i] and column [k]. *)
Definition np_empty (junk : nat -> nat -> R) (rows cols : nat) : list (list R) :=
  map (fun i => map (junk i) (seq 0 cols)) (seq 0 rows).

(** The body of the loop of [simulate_paths] (line 69): column [step] of
    every row becomes column [step - 1] times the exponential of the row's
    shock. *)
Definition advance (drift diffusion : R) (shocks : nat -> nat -> R)
    (m : list (list R)) (step : nat) : list (list R) :=
  mapi (fun i row =>
          set_item row step
            (item row (step - 1) * exp (drift + diffusion * shocks i (step - 1)%nat))) m.

(** [np.random.default_rng(seed)].  Modelled from numpy's documented
    contract: the seed is [None] or a non-negative integer, and a negative
    integer raises [ValueError].  The generator that it returns is not
    modelled: its draws are the [shocks] below. *)
Definition default_rng (seed : option Z) : py unit :=
  match seed with
  | Some s => if (s <? 0)%Z then raise (ValueError msg_seed) else ret tt
  | None => ret tt
  end.

(** [simulate_paths].  [shocks i k] is the entry at row [i], column [k] of
    the matrix that [rng.normal] returns, and [junk] is the content of the
    matrix that [np.empty] returns. *)
Definition simulate_paths (junk shocks : nat -> nat -> R) (params : MonteCarloParameters)
  : py (list (list R)) :=
  validate params ;;
  default_rng (seed params) ;;
  dt <- float_div (time params) (IZR (steps params)) ;;
  let drift :=
    (rate params - dividend_yield params - 0.5 * volatility params ^ 2) * dt in
  let diffusion := volatility params * sqrt dt in
  let m := np_empty junk (Z.to_nat (paths params)) (Z.to_nat (steps params + 1)) in
  let m := mapi (fun _ row => set_item row 0 (spot params)) m in
  ret (fold_left (advance drift diffusion shocks) (seq 1 (Z.to_nat (steps params))) m).

(** What a payoff may yield for one path: a float, or a sequence (a list
    or an array) of such values. *)
Inductive pyvalue : Type :=
| Num (x : R)
| Arr (items : list pyvalue).

Definition dims_eqb (s t : list nat) : bool :=
  if list_eq_dec Nat.eq_dec s t then true else false.

(** The shape that [np.asarray] finds for a value: [()] for a float,
    [(len,) + shape of the items] for a sequence whose items all have one
    shape, and none for a ragged sequence. *)
Fixpoint np_shape (v : pyvalue) : option (list nat) :=
  match v with
  | Num _ => Some []
  | Arr items =>
      match map np_shape items with
      | [] => Some [0%nat]
      | None :: _ => None
      | Some s :: rest =>
          if forallb (fun t => match t with
                               | Some s' => dims_eqb s s'
                               | None => false
                               end) rest
          then Some (List.length items :: s)
          else None
      end
  end.

(** The floats of a value in row-major order. *)
Fixpoint np_ravel (v : pyvalue) : list R :=
  match v with
  | Num x => [x]
  | Arr items => flat_map np_ravel items
  end.

Record ndarray : Type := { nd_shape : list nat; nd_data : list R }.

(** [np.asarray(list(...), dtype=float)] *)
Definition np_asarray (items : list pyvalue) : py ndarray :=
  match np_shape (Arr items) with
  | None => raise (ValueError msg_sequence)
  | Some s => ret {| nd_shape := s; nd_data := np_ravel (Arr items) |}
  end.

(** [shape == (n,)] for a shape tuple and an [int] *)
Definition shape_is (s : list nat) (n : Z) : bool :=
  match s with
  | [d] => (Z.of_nat d =? n)%Z
  | _ => false
  end.

(** [np.mean]: the sum of the entries over their number. *)
Definition np_mean (xs : list R) : R := fold_right Rplus 0 xs / INR (List.length xs).

(** [monte_carlo_price].  A payoff is a function from the path matrix to the
    sequence of the values it yields. *)
Definition monte_carlo_price (junk shocks : nat -> nat -> R)
    (params : MonteCarloParameters) (payoff : list (list R) -> list pyvalue) : py R :=
  m <- simulate_paths junk shocks params ;;
  payoffs <- np_asarray (payoff m) ;;
  if negb (shape_is (nd_shape payoffs) (paths params))
  then raise (ValueError msg_shape)
  else
    let discount_factor := exp (- rate params * time params) in
    ret (discount_factor * np_mean (nd_data payoffs)).


(** *** Vocabulary for the statements *)






(** The seed is one that [np.random.default_rng] accepts. *)
Definition seed_accepted (p : MonteCarloParameters) : Prop :=
  match seed p with
  | Some s => (0 <= s)%Z
  | None => True
  end.

(** The matrix that [simulate_paths] returns on validated input. *)
Definition path_matrix (junk shocks : nat -> nat -> R) (p : MonteCarloParameters)
  : list (list R) :=
  let dt := time p / IZR (steps p) in
  fold_left
    (advance ((rate p - dividend_yield p - 0.5 * volatility p ^ 2) * dt)
       (volatility p * sqrt dt) shocks)
    (seq 1 (Z.to_nat (steps p)))
    (mapi (fun _ row => set_item row 0 (spot p))
       (np_empty junk (Z.to_nat (paths p)) (Z.to_nat (steps p + 1)))).

(** Columns [0..k] of a [rows] x [cols] matrix are filled: column 0 holds
    the spot and every filled entry is positive. *)
Definition filled (spot0 : R) (rows cols k : nat) (m : list (list R)) : Prop :=
  List.length m = rows /\
  forall i, (i < rows)%nat ->
    List.length (nth i m []) = cols /\
    item (nth i m []) 0 = spot0 /\
    forall c, (c <= k)%nat -> 0 < item (nth i m []) c.

(** A sample run: two paths of one step, all shocks zero, and the payoff
    of a call struck at 100 on the terminal price. *)
Definition two_paths : MonteCarloParameters :=
  {| spot := 100; rate := 0.05; time := 1; volatility := 0.2; paths := 2; steps := 1;
     dividend_yield := 0; seed := Some 42%Z |}.

Definition no_shock : nat -> nat -> R := fun _ _ => 0.



(** The sample run with a negative seed. *)
Definition negative_seed : MonteCarloParameters :=
  {| spot := 100; rate := 0.05; time := 1; volatility := 0.2; paths := 2; steps := 1;
     dividend_yield := 0; seed := Some (-1)%Z |}.

End monte_carlo.

(** ** Vocabulary for further properties of the lattice *)

Module lattice_terms.
Import binomial_model.

(** The same parameters with another strike or another spot. *)
Definition with_strike (k : R) (params : BinomialParameters) : BinomialParameters :=
  {| spot := spot params; strike := k; rate := rate params;
     time := time params; volatility := volatility params; steps := steps params;
     dividend_yield := dividend_yield params; option_type := option_type params;
     exercise := exercise params |}.

Definition with_spot (s : R) (params : BinomialParameters) : BinomialParameters :=
  {| spot := s; strike := strike params; rate := rate params;
     time := time params; volatility := volatility params; steps := steps params;
     dividend_yield := dividend_yield params; option_type := option_type params;
     exercise := exercise params |}.

(** The expectation of [a j] when [j] counts the up moves among [n]
    independent moves that go up with probability [prob]. *)
Definition binomial_expectation (prob : R) (n : nat) (a : nat -> R) : R :=
  sum_f_R0 (fun j => C n j * prob ^ j * (1 - prob) ^ (n - j) * a j) n.

(** The payoff at the terminal node reached by [j] up moves. *)
Definition terminal_payoff (params : BinomialParameters) (j : nat) : R :=
  _payoff (option_type params)
    (spot params * lattice_up params ^ j
     * lattice_down params ^ (Z.to_nat (steps params) - j))
    (strike params).

(** A put value at level [m] is at least zero and at least the strike
    compounded over the remaining steps less the carried node price. *)
Definition put_floor (spot0 strike0 up down disc growth : R) (n m : nat) (v : list R)
  : Prop :=
  (m <= n)%nat /\ List.length v = S m /\
  forall j, (j <= m)%nat ->
    0 <= item v j /\
    disc ^ (n - m) * strike0
    - (disc * growth) ^ (n - m) * (spot0 * up ^ j * down ^ (m - j)) <= item v j.

Definition same_put_floor (spot0 strike0 up down disc growth : R) (n m : nat)
    (v w : list R) : Prop :=
  v = w /\ put_floor spot0 strike0 up down disc growth n m v.

End lattice_terms.

(** ** Vocabulary for further properties of the simulation *)

Module simulation_terms.
Import monte_carlo.

(** The sum of the first [k] shocks of path [i]. *)
Fixpoint shock_sum (shocks : nat -> nat -> R) (i k : nat) : R :=
  match k with
  | O => 0
  | S k' => shock_sum shocks i k' + shocks i k'
  end.

(** The price of path [i] after [k] steps of geometric Brownian motion. *)
Definition gbm_price (spot0 drift diffusion : R) (shocks : nat -> nat -> R)
    (i k : nat) : R :=
  spot0 * exp (INR k * drift + diffusion * shock_sum shocks i k).

(** Columns [0..k] of a [rows] x [cols] matrix hold the prices of the
    paths. *)
Definition tracks (spot0 drift diffusion : R) (shocks : nat -> nat -> R)
    (rows cols k : nat) (m : list (list R)) : Prop :=
  List.length m = rows /\
  forall i, (i < rows)%nat ->
    List.length (nth i m []) = cols /\
    forall c, (c <= k)%nat ->
      item (nth i m []) c = gbm_price spot0 drift diffusion shocks i c.

(** The drift and diffusion per step of [simulate_paths] (lines 59-61). *)
Definition step_drift (p : MonteCarloParameters) : R :=
  (rate p - dividend_yield p - 0.5 * volatility p ^ 2) * (time p / IZR (steps p)).

Definition step_diffusion (p : MonteCarloParameters) : R :=
  volatility p * sqrt (time p / IZR (steps p)).

(** The path that every row follows when there is no volatility. *)
Definition forward_path (p : MonteCarloParameters) : list R :=
  map (fun k => spot p * exp (INR k * ((rate p - dividend_yield p)
                                       * (time p / IZR (steps p)))))
      (seq 0 (Z.to_nat (steps p) + 1)).

(** Samples: the run [two_paths] without volatility, a run that asks for
    no path, and the expression [np.maximum(100 - path[-1], 0)]. *)
Definition calm_paths : MonteCarloParameters :=
  {| spot := 100; rate := 0.05; time := 1; volatility := 0; paths := 2; steps := 1;
     dividend_yield := 0; seed := None |}.

Definition without_paths : MonteCarloParameters :=
  {| spot := 100; rate := 0.05; time := 1; volatility := 0.2; paths := 0; steps := 1;
     dividend_yield := 0; seed := None |}.


End simulation_terms.

(** * Facts about the Python primitives *)

Lemma Rleb_true x y : Rleb x y = true <-> x <= y.
Proof. unfold Rleb. destruct (Rle_dec x y); split; intros; congruence || lra. Qed.

Lemma Rleb_false x y : Rleb x y = false <-> y < x.
Proof. unfold Rleb. destruct (Rle_dec x y); split; intros; congruence || lra. Qed.

Lemma Rltb_true x y : Rltb x y = true <-> x < y.
Proof. unfold Rltb. destruct (Rlt_dec x y); split; intros; congruence || lra. Qed.

Lemma Rltb_false x y : Rltb x y = false <-> y <= x.
Proof. unfold Rltb. destruct (Rlt_dec x y); split; intros; congruence || lra. Qed.

Lemma float_div_ok x y : y <> 0 -> float_div x y = inr (x / y).
Proof. intros H. unfold float_div. destruct (Req_dec_T y 0); [contradiction | reflexivity]. Qed.

Lemma float_div_zero x : float_div x 0 = inl ZeroDivisionError.
Proof. unfold float_div. destruct (Req_dec_T 0 0); [reflexivity | congruence]. Qed.


Lemma item_map_seq (f : nat -> R) (k j : nat) :
  (j < k)%nat -> item (map f (seq 0 k)) j = f j.
Proof.
  intros Hj. unfold item.
  rewrite (nth_indep _ 0 (f 0%nat)) by (rewrite length_map, length_seq; exact Hj).
  rewrite map_nth, seq_nth by exact Hj. reflexivity.
Qed.

Lemma exp_pow_mult (x : R) (n : nat) : exp x ^ n = exp (INR n * x).
Proof.
  induction n as [|n IH].
  - simpl. rewrite Rmult_0_l, exp_0. reflexivity.
  - rewrite S_INR. simpl. rewrite IH, <- exp_plus. f_equal. ring.
Qed.

Lemma Rmax_call_put (s k : R) : Rmax (s - k) 0 - Rmax (k - s) 0 = s - k.
Proof.
  unfold Rmax. destruct (Rle_dec (s - k) 0), (Rle_dec (k - s) 0); lra.
Qed.

Lemma iter_descend (g : list R -> list R) (n : nat) (values : list R) :
  Nat.iter n g values = descend (fun _ => g) n values.
Proof.
  revert values. induction n as [|n IH]; intros values.
  - reflexivity.
  - rewrite Nat.iter_succ_r. simpl. apply IH.
Qed.

Lemma fold_rev_seq_descend (g : list R -> nat -> list R) (n : nat) (values : list R) :
  fold_left g (rev (seq 0 n)) values = descend (fun m v => g v m) n values.
Proof.
  revert values. induction n as [|n IH]; intros values.
  - reflexivity.
  - rewrite seq_S, rev_unit. simpl. apply IH.
Qed.

(** A level-indexed invariant that each round carries one level down holds
    at the root. *)
Lemma descend_invariant (f : nat -> list R -> list R) (P : nat -> list R -> Prop) :
  (forall m v, P (S m) v -> P m (f m v)) ->
  forall n v, P n v -> P 0%nat (descend f n v).
Proof.
  intros Hstep n. induction n as [|n IH]; intros v Hv.
  - exact Hv.
  - simpl. apply IH, Hstep, Hv.
Qed.

Lemma descend_relation (f g : nat -> list R -> list R)
    (Q : nat -> list R -> list R -> Prop) :
  (forall m v w, Q (S m) v w -> Q m (f m v) (g m w)) ->
  forall n v w, Q n v w -> Q 0%nat (descend f n v) (descend g n w).
Proof.
  intros Hstep n. induction n as [|n IH]; intros v w Hvw.
  - exact Hvw.
  - simpl. apply IH, Hstep, Hvw.
Qed.

(** * The binomial lattice *)

Module binomial_facts.
Import binomial_model.

(** ** Validation *)

Lemma validate_inr (p : BinomialParameters) :
  validate p = inr tt <->
  (0 < steps p)%Z /\ 0 < spot p /\ 0 < strike p /\ 0 <= volatility p /\ 0 < time p /\
  (option_type p = "call"%string \/ option_type p = "put"%string) /\
  (exercise p = "european"%string \/ exercise p = "american"%string).
Proof.
  unfold validate.
  destruct (Z.leb_spec (steps p) 0) as [Hs|Hs].
  { split; [discriminate | intros [H _]; lia]. }
  destruct (Rleb (spot p) 0) eqn:Hspot; simpl.
  { apply Rleb_true in Hspot. split; [discriminate | intros (_ & H & _); lra]. }
  apply Rleb_false in Hspot.
  destruct (Rleb (strike p) 0) eqn:Hstrike; simpl.
  { apply Rleb_true in Hstrike. split; [discriminate | intros (_ & _ & H & _); lra]. }
  apply Rleb_false in Hstrike.
  destruct (Rltb (volatility p) 0) eqn:Hvol.
  { apply Rltb_true in Hvol. split; [discriminate | intros (_ & _ & _ & H & _); lra]. }
  apply Rltb_false in Hvol.
  destruct (Rleb (time p) 0) eqn:Htime.
  { apply Rleb_true in Htime. split; [discriminate | intros (_ & _ & _ & _ & H & _); lra]. }
  apply Rleb_false in Htime.
  destruct (String.eqb_spec (option_type p) "call") as [Hc|Hc];
    destruct (String.eqb_spec (option_type p) "put") as [Hp|Hp]; simpl;
    try (split; [discriminate | intros (_ & _ & _ & _ & _ & [H|H] & _); contradiction]);
    (destruct (String.eqb_spec (exercise p) "european") as [He|He];
     destruct (String.eqb_spec (exercise p) "american") as [Ha|Ha]; simpl;
     try (split; [discriminate | intros (_ & _ & _ & _ & _ & _ & [H|H]); contradiction]);
     (split; [intros _ | reflexivity]; repeat split; auto)).
Qed.

Lemma validate_error_kind (p : BinomialParameters) (e : exn) :
  validate p = inl e -> is_validation_error e.
Proof.
  unfold validate, is_validation_error.
  repeat match goal with
         | |- context [if ?b then _ else _] => destruct b
         end;
    simpl; intros H; inversion H; subst; simpl; tauto.
Qed.

Lemma validate_with_exercise (style : string) (p : BinomialParameters) :
  validate p = inr tt ->
  style = "european"%string \/ style = "american"%string ->
  validate (with_exercise style p) = inr tt.
Proof.
  intros Hv Hs. apply validate_inr. apply validate_inr in Hv.
  simpl. tauto.
Qed.

Lemma validate_with_option_type (kind : string) (p : BinomialParameters) :
  validate p = inr tt ->
  kind = "call"%string \/ kind = "put"%string ->
  validate (with_option_type kind p) = inr tt.
Proof.
  intros Hv Hs. apply validate_inr. apply validate_inr in Hv.
  simpl. tauto.
Qed.

(** ** One round of backward induction *)

Section Rounds.

Variables (spot0 strike0 up down disc prob : R).
Variable payoff_fn : R -> R -> R.

Let eur := european_round disc prob.
Let ame := american_round spot0 strike0 up down disc prob payoff_fn.

Lemma european_round_length (v : list R) :
  List.length (eur v) = (List.length v - 1)%nat.
Proof. unfold eur, european_round. rewrite length_map, length_seq. reflexivity. Qed.

Lemma european_round_item (v : list R) (j : nat) :
  (j < List.length v - 1)%nat ->
  item (eur v) j = disc * (prob * item v (j + 1) + (1 - prob) * item v j).
Proof. intros Hj. unfold eur, european_round. rewrite item_map_seq by exact Hj. reflexivity. Qed.

Lemma american_round_length (v : list R) (step : nat) :
  List.length (ame v step) = (step + 1)%nat.
Proof. unfold ame, american_round. rewrite length_map, length_seq. reflexivity. Qed.

Lemma american_round_item (v : list R) (step j : nat) :
  (j <= step)%nat ->
  item (ame v step) j =
  Rmax (disc * (prob * item v (j + 1) + (1 - prob) * item v j))
       (payoff_fn (spot0 * up ^ j * down ^ (step - j)) strike0).
Proof.
  intros Hj. unfold ame, american_round. rewrite item_map_seq by lia. reflexivity.
Qed.

Hypothesis disc_pos : 0 < disc.
Hypothesis prob_range : 0 <= prob <= 1.

(** The discounted mixture is monotone in both neighbours. *)
Lemma mixture_monotone (a0 a1 b0 b1 : R) :
  a0 <= b0 -> a1 <= b1 ->
  disc * (prob * a1 + (1 - prob) * a0) <= disc * (prob * b1 + (1 - prob) * b0).
Proof.
  intros H0 H1. apply Rmult_le_compat_l; [lra|].
  apply Rplus_le_compat; apply Rmult_le_compat_l; lra.
Qed.

Lemma mixture_nonneg (a0 a1 : R) :
  0 <= a0 -> 0 <= a1 -> 0 <= disc * (prob * a1 + (1 - prob) * a0).
Proof.
  intros H0 H1. apply Rmult_le_pos; [lra|].
  apply Rplus_le_le_0_compat; apply Rmult_le_pos; lra.
Qed.

Lemma dominated_round (m : nat) (v w : list R) :
  dominated (S m) v w -> dominated m (eur v) (ame w m).
Proof.
  intros (Hv & Hw & Hle). repeat split.
  - rewrite european_round_length, Hv. lia.
  - rewrite american_round_length. lia.
  - intros j Hj.
    rewrite european_round_item by (rewrite Hv; lia).
    rewrite american_round_item by exact Hj.
    eapply Rle_trans; [|apply Rmax_l].
    apply mixture_monotone; apply Hle; lia.
Qed.

Lemma nonnegative_european_round (m : nat) (v : list R) :
  nonnegative (S m) v -> nonnegative m (eur v).
Proof.
  intros (Hv & Hpos). split.
  - rewrite european_round_length, Hv. lia.
  - intros j Hj. rewrite european_round_item by (rewrite Hv; lia).
    apply mixture_nonneg; apply Hpos; lia.
Qed.

Lemma nonnegative_american_round (m : nat) (v : list R) :
  nonnegative (S m) v -> nonnegative m (ame v m).
Proof.
  intros (Hv & Hpos). split.
  - rewrite american_round_length. lia.
  - intros j Hj. rewrite american_round_item by exact Hj.
    eapply Rle_trans; [|apply Rmax_l].
    apply mixture_nonneg; apply Hpos; lia.
Qed.

Lemma european_loop_dominated_by_american (n : nat) (v w : list R) :
  dominated n v w ->
  item (Nat.iter n eur v) 0 <= item (fold_left ame (rev (seq 0 n)) w) 0.
Proof.
  intros H. rewrite iter_descend, fold_rev_seq_descend.
  apply (descend_relation (fun _ => eur) (fun m x => ame x m) dominated) in H.
  - destruct H as (_ & _ & H). apply H. lia.
  - intros m a b. apply dominated_round.
Qed.

Lemma european_loop_nonnegative (n : nat) (v : list R) :
  nonnegative n v -> 0 <= item (Nat.iter n eur v) 0.
Proof.
  intros H. rewrite iter_descend.
  apply (descend_invariant (fun _ => eur) nonnegative) in H.
  - destruct H as (_ & H). apply H. lia.
  - intros m a. apply nonnegative_european_round.
Qed.

Lemma american_loop_nonnegative (n : nat) (v : list R) :
  nonnegative n v -> 0 <= item (fold_left ame (rev (seq 0 n)) v) 0.
Proof.
  intros H. rewrite fold_rev_seq_descend.
  apply (descend_invariant (fun m x => ame x m) nonnegative) in H.
  - destruct H as (_ & H). apply H. lia.
  - intros m a. apply nonnegative_american_round.
Qed.

(** The last American round is at level 0, whose only node is the spot. *)
Lemma american_loop_root (n : nat) (v : list R) :
  (0 < n)%nat ->
  payoff_fn spot0 strike0 <= item (fold_left ame (rev (seq 0 n)) v) 0.
Proof.
  intros Hn. destruct n as [|n]; [lia|].
  change (seq 0 (S n)) with (0%nat :: seq 1 n).
  simpl rev. rewrite fold_left_app. simpl fold_left.
  rewrite american_round_item by lia.
  eapply Rle_trans; [|apply Rmax_r].
  simpl. right. f_equal. ring.
Qed.

End Rounds.

(** ** The derived quantities of a validated parameter set *)

Section Derived.

Variable p : BinomialParameters.
Hypothesis valid : validate p = inr tt.

Lemma steps_nonzero : IZR (steps p) <> 0.
Proof.
  destruct (proj1 (validate_inr p) valid) as (Hs & _).
  apply not_0_IZR. lia.
Qed.

Lemma lattice_dt_pos : 0 < lattice_dt p.
Proof.
  destruct (proj1 (validate_inr p) valid) as (Hs & _ & _ & _ & Ht & _).
  unfold lattice_dt. apply Rdiv_lt_0_compat; [exact Ht|].
  apply IZR_lt. exact Hs.
Qed.

Lemma lattice_up_pos : 0 < lattice_up p.
Proof. apply exp_pos. Qed.

Lemma lattice_up_ge_1 : 1 <= lattice_up p.
Proof.
  destruct (proj1 (validate_inr p) valid) as (_ & _ & _ & Hv & _).
  unfold lattice_up. rewrite <- exp_0.
  destruct (Req_dec_T (volatility p * sqrt (lattice_dt p)) 0) as [E|E].
  - rewrite E. lra.
  - left. apply exp_increasing.
    assert (0 <= volatility p * sqrt (lattice_dt p))
      by (apply Rmult_le_pos; [exact Hv | apply sqrt_pos]).
    lra.
Qed.

Lemma lattice_down_pos : 0 < lattice_down p.
Proof. unfold lattice_down. apply Rdiv_lt_0_compat; [lra | apply lattice_up_pos]. Qed.

Lemma lattice_disc_pos : 0 < lattice_disc p.
Proof. apply exp_pos. Qed.

Lemma up_times_down : lattice_up p * lattice_down p = 1.
Proof. unfold lattice_down. field. apply Rgt_not_eq, lattice_up_pos. Qed.

(** Without volatility the two moves coincide. *)
Lemma zero_volatility_degenerate :
  volatility p = 0 -> lattice_up p - lattice_down p = 0.
Proof.
  intros Hv. unfold lattice_down, lattice_up. rewrite Hv, Rmult_0_l, exp_0. field.
Qed.

Lemma positive_volatility_spread :
  0 < volatility p -> 0 < lattice_up p - lattice_down p.
Proof.
  intros Hv.
  assert (Hup : 1 < lattice_up p).
  { unfold lattice_up. rewrite <- exp_0. apply exp_increasing.
    apply Rmult_lt_0_compat; [exact Hv | apply sqrt_lt_R0, lattice_dt_pos]. }
  assert (Hdown : lattice_down p < 1).
  { unfold lattice_down. apply Rmult_lt_reg_r with (lattice_up p); [lra|].
    unfold Rdiv. rewrite Rmult_assoc, Rinv_l by lra. lra. }
  lra.
Qed.

Lemma derived_probability_none :
  derived_probability p = None <-> volatility p = 0.
Proof.
  unfold derived_probability.
  destruct (Req_dec_T (lattice_up p - lattice_down p) 0) as [E|E]; split; intros H;
    try reflexivity; try discriminate.
  - destruct (proj1 (validate_inr p) valid) as (_ & _ & _ & Hv & _).
    destruct (Req_dec_T (volatility p) 0) as [Z|Z]; [exact Z|].
    assert (0 < lattice_up p - lattice_down p)
      by (apply positive_volatility_spread; lra).
    lra.
  - exfalso. apply E, zero_volatility_degenerate, H.
Qed.

(** The three outcomes of [binomial_option_price] on validated input. *)
Lemma price_zero_division :
  derived_probability p = None ->
  binomial_option_price p = inl ZeroDivisionError.
Proof.
  unfold derived_probability.
  destruct (Req_dec_T (lattice_up p - lattice_down p) 0) as [E|E]; [intros _|discriminate].
  unfold binomial_option_price. rewrite valid. simpl.
  rewrite float_div_ok by exact steps_nonzero. simpl.
  rewrite float_div_ok by (apply Rgt_not_eq, exp_pos). simpl.
  fold (lattice_dt p). fold (lattice_up p). fold (lattice_down p).
  rewrite E, float_div_zero. reflexivity.
Qed.

Lemma price_calibration_error (q : R) :
  derived_probability p = Some q -> ~ (0 <= q <= 1) ->
  binomial_option_price p = inl (ValueError msg_probability).
Proof.
  unfold derived_probability.
  destruct (Req_dec_T (lattice_up p - lattice_down p) 0) as [E|E]; [discriminate|].
  intros Hq Hout. injection Hq as Hq.
  unfold binomial_option_price. rewrite valid. simpl.
  rewrite float_div_ok by exact steps_nonzero. simpl.
  rewrite float_div_ok by (apply Rgt_not_eq, exp_pos). simpl.
  fold (lattice_dt p). fold (lattice_up p). fold (lattice_down p). fold (lattice_growth p).
  rewrite float_div_ok by exact E. simpl. rewrite Hq.
  destruct (Rleb 0 q) eqn:H0; destruct (Rleb q 1) eqn:H1; simpl; try reflexivity.
  apply Rleb_true in H0, H1. tauto.
Qed.

Lemma price_calibrated (q : R) :
  derived_probability p = Some q -> 0 <= q <= 1 ->
  binomial_option_price p = inr (lattice_root p q).
Proof.
  unfold derived_probability.
  destruct (Req_dec_T (lattice_up p - lattice_down p) 0) as [E|E]; [discriminate|].
  intros Hq [H0 H1]. injection Hq as Hq.
  unfold binomial_option_price. rewrite valid. simpl.
  rewrite float_div_ok by exact steps_nonzero. simpl.
  rewrite float_div_ok by (apply Rgt_not_eq, exp_pos). simpl.
  fold (lattice_dt p). fold (lattice_up p). fold (lattice_down p). fold (lattice_growth p).
  rewrite float_div_ok by exact E. simpl. rewrite Hq.
  apply Rleb_true in H0, H1. rewrite H0, H1. simpl.
  unfold lattice_root, terminal_values. fold (lattice_disc p).
  destruct (String.eqb (exercise p) "european"); reflexivity.
Qed.

End Derived.

(** ** Terminal payoffs *)

Lemma payoff_nonneg (kind : string) (price k : R) : 0 <= _payoff kind price k.
Proof. unfold _payoff. destruct (String.eqb kind "call"); apply Rmax_r. Qed.

Lemma terminal_values_length (p : BinomialParameters) :
  List.length (terminal_values p) = S (Z.to_nat (steps p)).
Proof.
  unfold terminal_values. cbv zeta. rewrite !length_map, length_seq. lia.
Qed.

Lemma terminal_values_item (p : BinomialParameters) (j : nat) :
  (j <= Z.to_nat (steps p))%nat ->
  item (terminal_values p) j =
  _payoff (option_type p)
    (spot p * lattice_up p ^ j * lattice_down p ^ (Z.to_nat (steps p) - j)) (strike p).
Proof.
  intros Hj. unfold terminal_values. cbv zeta. rewrite map_map.
  rewrite item_map_seq by lia. reflexivity.
Qed.

Lemma terminal_values_nonnegative (p : BinomialParameters) :
  nonnegative (Z.to_nat (steps p)) (terminal_values p).
Proof.
  split; [apply terminal_values_length|].
  intros j Hj. rewrite terminal_values_item by exact Hj. apply payoff_nonneg.
Qed.

Lemma dominated_refl (m : nat) (v : list R) : List.length v = S m -> dominated m v v.
Proof. intros H. repeat split; try exact H. intros; lra. Qed.

Lemma calibrated_one_step (kind style : string) : calibrated (one_step kind style).
Proof.
  unfold calibrated, derived_probability, lattice_growth, lattice_down, lattice_up,
    lattice_dt. simpl.
  replace (1 / 1) with 1 by field. rewrite sqrt_1, Rmult_1_r.
  replace ((0 - 0) * 1) with 0 by ring. rewrite exp_0.
  assert (He : 1 < exp 1) by (pose proof (exp_ineq1_le 1); lra).
  assert (Hd : 0 < 1 / exp 1 < 1).
  { split; [apply Rdiv_lt_0_compat; lra|].
    apply Rmult_lt_reg_r with (exp 1); [lra|].
    unfold Rdiv. rewrite Rmult_assoc, Rinv_l by lra. lra. }
  destruct (Req_dec_T (exp 1 - 1 / exp 1) 0) as [E|E]; [lra|].
  eexists. split; [reflexivity|]. split.
  - apply Rmult_le_pos; [lra|]. left. apply Rinv_0_lt_compat. lra.
  - apply Rmult_le_reg_r with (exp 1 - 1 / exp 1); [lra|].
    unfold Rdiv at 1. rewrite Rmult_assoc, Rinv_l by lra. lra.
Qed.

Lemma validate_one_step (kind style : string) :
  kind = "call"%string \/ kind = "put"%string ->
  style = "european"%string \/ style = "american"%string ->
  validate (one_step kind style) = inr tt.
Proof.
  intros Hk Hs. apply validate_inr. simpl.
  repeat split; try lra; try lia; assumption.
Qed.

(** ** Claims on the lattice price *)

(** C1. For parameters that pass validation and whose derived risk-neutral
    probability lies in [0,1], both exercise styles return a price, and the
    price with exercise "american" is at least the price with exercise
    "european", all other fields being identical. *)
Theorem american_at_least_european (p : BinomialParameters) :
  validate p = inr tt -> calibrated p ->
  exists e a : R,
    binomial_option_price (with_exercise "european" p) = inr e /\
    binomial_option_price (with_exercise "american" p) = inr a /\
    e <= a.
Proof.
  intros Hv (q & Hq & Hrange).
  exists (lattice_root (with_exercise "european" p) q),
         (lattice_root (with_exercise "american" p) q).
  split; [|split].
  - apply price_calibrated; auto using validate_with_exercise.
  - apply price_calibrated; auto using validate_with_exercise.
  - unfold lattice_root. simpl.
    apply european_loop_dominated_by_american.
    + apply exp_pos.
    + exact Hrange.
    + apply dominated_refl, (terminal_values_length (with_exercise "european" p)).
Qed.

Lemma american_at_least_european_witness :
  validate (one_step "call" "european") = inr tt /\
  calibrated (one_step "call" "european") /\
  exists e a : R,
    binomial_option_price (with_exercise "european" (one_step "call" "european")) = inr e /\
    binomial_option_price (with_exercise "american" (one_step "call" "european")) = inr a /\
    e <= a.
Proof.
  split; [|split].
  - apply validate_one_step; auto.
  - apply calibrated_one_step.
  - apply (american_at_least_european (one_step "call" "european")).
    + apply validate_one_step; auto.
    + apply calibrated_one_step.
Defined.

(** C9. For parameters that pass validation and whose derived risk-neutral
    probability lies in [0,1], [binomial_option_price] returns a value that
    is greater than or equal to zero, whatever the option kind and the
    exercise style. *)
Theorem price_nonnegative (p : BinomialParameters) :
  validate p = inr tt -> calibrated p ->
  exists v : R, binomial_option_price p = inr v /\ 0 <= v.
Proof.
  intros Hv (q & Hq & Hrange).
  exists (lattice_root p q). split; [apply price_calibrated; assumption|].
  unfold lattice_root.
  destruct (String.eqb (exercise p) "european").
  - apply european_loop_nonnegative;
      [apply exp_pos | exact Hrange | apply terminal_values_nonnegative].
  - apply american_loop_nonnegative;
      [apply exp_pos | exact Hrange | apply terminal_values_nonnegative].
Qed.

Lemma price_nonnegative_witness :
  validate (one_step "put" "american") = inr tt /\
  calibrated (one_step "put" "american") /\
  exists v : R, binomial_option_price (one_step "put" "american") = inr v /\ 0 <= v.
Proof.
  split; [|split].
  - apply validate_one_step; auto.
  - apply calibrated_one_step.
  - apply (price_nonnegative (one_step "put" "american")).
    + apply validate_one_step; auto.
    + apply calibrated_one_step.
Defined.

(** C10. For parameters that pass validation, with exercise "american" and
    derived risk-neutral probability in [0,1], the returned value is at
    least the payoff of exercising at once at the spot price:
    max(spot - strike, 0) for a call, max(strike - spot, 0) for a put. *)
Theorem american_at_least_intrinsic (p : BinomialParameters) :
  validate p = inr tt -> calibrated p -> exercise p = "american"%string ->
  exists v : R,
    binomial_option_price p = inr v /\
    (option_type p = "call"%string -> Rmax (spot p - strike p) 0 <= v) /\
    (option_type p = "put"%string -> Rmax (strike p - spot p) 0 <= v).
Proof.
  intros Hv (q & Hq & Hrange) Hex.
  exists (lattice_root p q). split; [apply price_calibrated; assumption|].
  assert (Hn : (0 < Z.to_nat (steps p))%nat).
  { apply validate_inr in Hv. destruct Hv as (Hs & _). lia. }
  assert (Hroot : _payoff (option_type p) (spot p) (strike p) <= lattice_root p q).
  { unfold lattice_root. rewrite Hex. simpl. apply american_loop_root. exact Hn. }
  split; intros Hkind; rewrite Hkind in Hroot; exact Hroot.
Qed.

Lemma american_at_least_intrinsic_witness :
  validate (one_step "put" "american") = inr tt /\
  calibrated (one_step "put" "american") /\
  exercise (one_step "put" "american") = "american"%string /\
  exists v : R,
    binomial_option_price (one_step "put" "american") = inr v /\
    (option_type (one_step "put" "american") = "call"%string ->
     Rmax (spot (one_step "put" "american") - strike (one_step "put" "american")) 0 <= v) /\
    (option_type (one_step "put" "american") = "put"%string ->
     Rmax (strike (one_step "put" "american") - spot (one_step "put" "american")) 0 <= v).
Proof.
  split; [|split; [|split]].
  - apply validate_one_step; auto.
  - apply calibrated_one_step.
  - reflexivity.
  - apply (american_at_least_intrinsic (one_step "put" "american")).
    + apply validate_one_step; auto.
    + apply calibrated_one_step.
    + reflexivity.
Defined.

(** ** Failures *)

Lemma validate_inl (p : BinomialParameters) :
  (exists e, validate p = inl e) <->
  (steps p <= 0)%Z \/ spot p <= 0 \/ strike p <= 0 \/ volatility p < 0 \/ time p <= 0 \/
  ~ (option_type p = "call"%string \/ option_type p = "put"%string) \/
  ~ (exercise p = "european"%string \/ exercise p = "american"%string).
Proof.
  split.
  - intros [e He].
    destruct (validate p) as [e'|[]] eqn:Hv; [clear He | discriminate].
    assert (Hnot : validate p <> inr tt) by congruence.
    rewrite validate_inr in Hnot.
    destruct (Z_le_gt_dec (steps p) 0); [tauto|].
    destruct (Rle_dec (spot p) 0); [tauto|].
    destruct (Rle_dec (strike p) 0); [tauto|].
    destruct (Rlt_dec (volatility p) 0); [tauto|].
    destruct (Rle_dec (time p) 0); [tauto|].
    destruct (string_dec (option_type p) "call"), (string_dec (option_type p) "put"),
      (string_dec (exercise p) "european"), (string_dec (exercise p) "american");
      try tauto;
      exfalso; apply Hnot; repeat split; try lia; try lra; tauto.
  - intros H. destruct (validate p) as [e|[]] eqn:Hv; [exists e; reflexivity|].
    exfalso. apply validate_inr in Hv.
    destruct Hv as (H1 & H2 & H3 & H4 & H5 & H6 & H7).
    destruct H as [H|[H|[H|[H|[H|[H|H]]]]]]; try lia; try lra; tauto.
Qed.

Lemma calibration_message_not_validation :
  ~ is_validation_error (ValueError msg_probability).
Proof.
  unfold is_validation_error. simpl.
  intros [H|[H|[H|[H|[H|[H|[]]]]]]]; discriminate H.
Qed.

Lemma zero_division_not_validation : ~ is_validation_error ZeroDivisionError.
Proof.
  unfold is_validation_error. simpl.
  intros [H|[H|[H|[H|[H|[H|[]]]]]]]; discriminate H.
Qed.

(** What a validated parameter set can produce. *)
Lemma validated_outcomes (p : BinomialParameters) :
  validate p = inr tt ->
  binomial_option_price p = inl ZeroDivisionError \/
  binomial_option_price p = inl (ValueError msg_probability) \/
  exists v, binomial_option_price p = inr v.
Proof.
  intros Hv. destruct (derived_probability p) as [q|] eqn:Hq.
  - destruct (Rle_dec 0 q) as [H0|H0]; [destruct (Rle_dec q 1) as [H1|H1]|].
    + right; right. eexists. apply price_calibrated; [exact Hv | exact Hq | lra].
    + right; left. apply (price_calibration_error p Hv q Hq). lra.
    + right; left. apply (price_calibration_error p Hv q Hq). lra.
  - left. apply price_zero_division; assumption.
Qed.

Lemma validation_error_propagates (p : BinomialParameters) (e : exn) :
  validate p = inl e -> binomial_option_price p = inl e.
Proof. intros He. unfold binomial_option_price. rewrite He. reflexivity. Qed.

(** C3. [binomial_option_price] raises one of the errors of validation if
    and only if steps <= 0, spot <= 0, strike <= 0, volatility < 0,
    time <= 0, the option kind is neither "call" nor "put", or the exercise
    style is neither "european" nor "american"; and that error is the one
    [validate] raises as the first statement of the function, before any
    pricing computation. *)
Theorem validation_error_iff (p : BinomialParameters) :
  ((exists e, is_validation_error e /\ binomial_option_price p = inl e) <->
   (steps p <= 0)%Z \/ spot p <= 0 \/ strike p <= 0 \/ volatility p < 0 \/ time p <= 0 \/
   ~ (option_type p = "call"%string \/ option_type p = "put"%string) \/
   ~ (exercise p = "european"%string \/ exercise p = "american"%string)) /\
  (forall e, is_validation_error e /\ binomial_option_price p = inl e <->
             validate p = inl e).
Proof.
  pose proof (validation_error_propagates p) as Hraise.
  assert (Hfrom : forall e, is_validation_error e -> binomial_option_price p = inl e ->
                            validate p = inl e).
  { intros e Hkind He. destruct (validate p) as [e'|[]] eqn:Hv.
    - rewrite (validation_error_propagates p e' Hv) in He.
      inversion He. reflexivity.
    - exfalso. destruct (validated_outcomes p Hv) as [H|[H|[v H]]];
        rewrite H in He; inversion He; subst.
      + exact (zero_division_not_validation Hkind).
      + exact (calibration_message_not_validation Hkind). }
  split.
  - rewrite <- validate_inl. split.
    + intros (e & Hkind & He). exists e. auto.
    + intros (e & He). exists e. split; [eapply validate_error_kind; eassumption | auto].
  - intros e. split.
    + intros [Hkind He]. auto.
    + intros He. split; [eapply validate_error_kind; eassumption | auto].
Qed.

(** C2, at the failing input: with volatility 0 the parameters pass
    validation, [up] equals [down], and the division at line 82 raises
    [ZeroDivisionError], which is neither a validation error nor the
    calibration error. *)
Theorem zero_volatility_zero_division :
  validate flat_market = inr tt /\
  binomial_option_price flat_market = inl ZeroDivisionError /\
  ~ is_validation_error ZeroDivisionError /\
  ~ is_calibration_error ZeroDivisionError.
Proof.
  assert (Hv : validate flat_market = inr tt).
  { apply validate_inr. simpl. repeat split; try lra; try lia; auto. }
  split; [exact Hv|]. split; [|split].
  - apply price_zero_division; [exact Hv|].
    apply derived_probability_none; [exact Hv | reflexivity].
  - exact zero_division_not_validation.
  - unfold is_calibration_error. discriminate.
Qed.

(** ** Put-call parity and early exercise *)

Section Calibration.

Variables (spot0 strike0 up down disc prob growth : R).
Variable n : nat.

(** The calibration identity: the expected one-step move is the growth. *)
Hypothesis mixture : prob * up + (1 - prob) * down = growth.

Let parity := parity_level spot0 strike0 up down disc growth n.
Let floor := call_floor spot0 strike0 up down disc n.
Let same_floor := same_call_floor spot0 strike0 up down disc n.

Lemma parity_round (m : nat) (vc vp : list R) :
  parity (S m) vc vp ->
  parity m (european_round disc prob vc) (european_round disc prob vp).
Proof.
  intros (Hm & Hc & Hp & Hdiff). repeat split.
  - lia.
  - rewrite european_round_length, Hc. lia.
  - rewrite european_round_length, Hp. lia.
  - intros j Hj.
    rewrite !european_round_item by (rewrite ?Hc, ?Hp; lia).
    assert (H1 := Hdiff (j + 1)%nat ltac:(lia)).
    assert (H0 := Hdiff j ltac:(lia)).
    replace (S m - (j + 1))%nat with (m - j)%nat in H1 by lia.
    replace (S m - j)%nat with (S (m - j)) in H0 by lia.
    replace (n - m)%nat with (S (n - S m)) by lia.
    rewrite Nat.add_1_r in H1. simpl pow in H0, H1 |- *.
    set (a := (disc * growth) ^ (n - S m)) in *.
    set (b := disc ^ (n - S m)) in *.
    set (x := up ^ j) in *. set (y := down ^ (m - j)) in *.
    transitivity (disc * (prob * (item vc (j + 1) - item vp (j + 1))
                          + (1 - prob) * (item vc j - item vp j))); [ring|].
    rewrite Nat.add_1_r, H1, H0, <- mixture. ring.
Qed.

Lemma parity_root (vc vp : list R) :
  parity n vc vp ->
  item (Nat.iter n (european_round disc prob) vc) 0
  - item (Nat.iter n (european_round disc prob) vp) 0
  = (disc * growth) ^ n * spot0 - disc ^ n * strike0.
Proof.
  intros H. rewrite !iter_descend.
  apply (descend_relation (fun _ => european_round disc prob)
           (fun _ => european_round disc prob) parity) in H.
  - destruct H as (_ & _ & _ & H). rewrite (H 0%nat) by lia.
    rewrite Nat.sub_0_r. simpl. ring.
  - intros m a b. apply parity_round.
Qed.

(** With no dividend ([disc * growth = 1]) and a non-negative rate
    ([disc <= 1]) the continuation value of a call is never below its
    exercise value. *)
Hypothesis disc_pos : 0 < disc.
Hypothesis disc_le_1 : disc <= 1.
Hypothesis no_dividend : disc * growth = 1.
Hypothesis prob_range : 0 <= prob <= 1.
Hypothesis strike_pos : 0 < strike0.

Lemma disc_pow_range (k : nat) : 0 < disc ^ k <= 1.
Proof.
  induction k as [|k IH]; simpl; [lra|].
  destruct IH as [IH0 IH1]. split; [apply Rmult_lt_0_compat; lra | nra].
Qed.

Lemma call_floor_european_round (m : nat) (v : list R) :
  floor (S m) v -> floor m (european_round disc prob v).
Proof.
  intros (Hm & Hlen & Hfloor). repeat split.
  - lia.
  - rewrite european_round_length, Hlen. lia.
  - rewrite european_round_item by (rewrite Hlen; lia).
    destruct (Hfloor j ltac:(lia)) as [H0 _].
    destruct (Hfloor (j + 1)%nat ltac:(lia)) as [H1 _].
    apply mixture_nonneg; assumption.
  - rewrite european_round_item by (rewrite Hlen; lia).
    destruct (Hfloor j ltac:(lia)) as [_ H0].
    destruct (Hfloor (j + 1)%nat ltac:(lia)) as [_ H1].
    replace (S m - (j + 1))%nat with (m - j)%nat in H1 by lia.
    replace (S m - j)%nat with (S (m - j)) in H0 by lia.
    replace (n - m)%nat with (S (n - S m)) by lia.
    rewrite Nat.add_1_r in H1. simpl pow in H0, H1 |- *.
    set (b := disc ^ (n - S m)) in *.
    set (x := up ^ j) in *. set (y := down ^ (m - j)) in *.
    rewrite Nat.add_1_r.
    eapply Rle_trans;
      [|apply (mixture_monotone disc prob disc_pos prob_range _ _ _ _ H0 H1)].
    right.
    transitivity (spot0 * x * y * (disc * (prob * up + (1 - prob) * down))
                  - disc * b * strike0); [|ring].
    rewrite mixture, no_dividend. ring.
Qed.

Lemma call_never_exercised (m : nat) (v : list R) :
  floor (S m) v ->
  american_round spot0 strike0 up down disc prob (_payoff "call") v m
  = european_round disc prob v.
Proof.
  intros Hv. pose proof (call_floor_european_round m v Hv) as (_ & _ & Hfloor).
  destruct Hv as (Hm & Hlen & _).
  unfold american_round, european_round.
  replace (List.length v - 1)%nat with (m + 1)%nat by lia.
  apply map_ext_in. intros j Hj. apply in_seq in Hj. cbv zeta.
  destruct (Hfloor j ltac:(lia)) as [H0 H1].
  rewrite european_round_item in H0, H1 by (rewrite Hlen; lia).
  apply Rmax_left. unfold _payoff. simpl.
  pose proof (disc_pow_range (n - m)) as [Hd0 Hd1].
  apply Rmax_lub; [|exact H0].
  eapply Rle_trans; [|exact H1].
  assert (disc ^ (n - m) * strike0 <= strike0) by nra.
  lra.
Qed.

Lemma call_loops_agree (v : list R) :
  floor n v ->
  item (fold_left (american_round spot0 strike0 up down disc prob (_payoff "call"))
          (rev (seq 0 n)) v) 0
  = item (Nat.iter n (european_round disc prob) v) 0.
Proof.
  intros H. rewrite iter_descend, fold_rev_seq_descend.
  assert (Hrel : same_floor n v v) by (split; [reflexivity | exact H]).
  apply (descend_relation
           (fun m x => american_round spot0 strike0 up down disc prob (_payoff "call") x m)
           (fun _ => european_round disc prob) same_floor) in Hrel.
  - destruct Hrel as [Heq _]. rewrite Heq. reflexivity.
  - intros m a b [Hab Ha]. subst b. split.
    + apply call_never_exercised. exact Ha.
    + rewrite call_never_exercised by exact Ha.
      apply call_floor_european_round. exact Ha.
Qed.

End Calibration.

(** ** The calibrated lattice *)

Lemma probability_mixture (p : BinomialParameters) (q : R) :
  derived_probability p = Some q ->
  q * lattice_up p + (1 - q) * lattice_down p = lattice_growth p.
Proof.
  unfold derived_probability.
  destruct (Req_dec_T (lattice_up p - lattice_down p) 0) as [E|E]; [discriminate|].
  intros Hq. injection Hq as Hq. subst q. field. exact E.
Qed.

Lemma disc_times_growth (p : BinomialParameters) :
  lattice_disc p * lattice_growth p = exp (- dividend_yield p * lattice_dt p).
Proof.
  unfold lattice_disc, lattice_growth. rewrite <- exp_plus. f_equal. ring.
Qed.

Lemma steps_times_dt (p : BinomialParameters) :
  validate p = inr tt -> INR (Z.to_nat (steps p)) * lattice_dt p = time p.
Proof.
  intros Hv. pose proof (steps_nonzero p Hv) as Hnz.
  destruct (proj1 (validate_inr p) Hv) as (Hs & _).
  rewrite INR_IZR_INZ, Z2Nat.id by lia.
  unfold lattice_dt. field. exact Hnz.
Qed.

Lemma disc_pow_steps (p : BinomialParameters) :
  validate p = inr tt ->
  lattice_disc p ^ Z.to_nat (steps p) = exp (- rate p * time p).
Proof.
  intros Hv. unfold lattice_disc. rewrite exp_pow_mult. f_equal.
  rewrite <- (steps_times_dt p Hv). ring.
Qed.

Lemma carry_pow_steps (p : BinomialParameters) :
  validate p = inr tt ->
  (lattice_disc p * lattice_growth p) ^ Z.to_nat (steps p)
  = exp (- dividend_yield p * time p).
Proof.
  intros Hv. rewrite disc_times_growth, exp_pow_mult. f_equal.
  rewrite <- (steps_times_dt p Hv). ring.
Qed.

Lemma terminal_parity (p : BinomialParameters) :
  parity_level (spot p) (strike p) (lattice_up p) (lattice_down p) (lattice_disc p)
    (lattice_growth p) (Z.to_nat (steps p)) (Z.to_nat (steps p))
    (terminal_values (with_option_type "call" p))
    (terminal_values (with_option_type "put" p)).
Proof.
  repeat split.
  - lia.
  - apply (terminal_values_length (with_option_type "call" p)).
  - apply (terminal_values_length (with_option_type "put" p)).
  - intros j Hj.
    rewrite (terminal_values_item (with_option_type "call" p)) by exact Hj.
    rewrite (terminal_values_item (with_option_type "put" p)) by exact Hj.
    rewrite Nat.sub_diag. simpl.
    change (lattice_up (with_option_type "call" p)) with (lattice_up p).
    change (lattice_down (with_option_type "call" p)) with (lattice_down p).
    change (lattice_up (with_option_type "put" p)) with (lattice_up p).
    change (lattice_down (with_option_type "put" p)) with (lattice_down p).
    unfold _payoff. simpl. rewrite Rmax_call_put. ring.
Qed.

(** C5. For parameters that pass validation, with exercise "european" and
    derived risk-neutral probability in [0,1], both option kinds return a
    price and the call price less the put price is
    spot * exp(-dividend_yield * time) - strike * exp(-rate * time).  In the
    exact arithmetic of this model the two sides are equal, so they agree
    within every tolerance. *)
Theorem put_call_parity (p : BinomialParameters) :
  validate p = inr tt -> calibrated p -> exercise p = "european"%string ->
  exists c u : R,
    binomial_option_price (with_option_type "call" p) = inr c /\
    binomial_option_price (with_option_type "put" p) = inr u /\
    c - u = spot p * exp (- dividend_yield p * time p)
            - strike p * exp (- rate p * time p).
Proof.
  intros Hv (q & Hq & Hrange) Hex.
  exists (lattice_root (with_option_type "call" p) q),
         (lattice_root (with_option_type "put" p) q).
  split; [|split].
  - apply price_calibrated; auto using validate_with_option_type.
  - apply price_calibrated; auto using validate_with_option_type.
  - unfold lattice_root. simpl exercise. rewrite Hex. simpl String.eqb. cbv iota zeta.
    change (lattice_disc (with_option_type "call" p)) with (lattice_disc p).
    change (lattice_disc (with_option_type "put" p)) with (lattice_disc p).
    change (steps (with_option_type "call" p)) with (steps p).
    change (steps (with_option_type "put" p)) with (steps p).
    rewrite (parity_root (spot p) (strike p) (lattice_up p) (lattice_down p)
               (lattice_disc p) q (lattice_growth p) (Z.to_nat (steps p))
               (probability_mixture p q Hq) _ _ (terminal_parity p)).
    rewrite carry_pow_steps, disc_pow_steps by exact Hv. ring.
Qed.

Lemma put_call_parity_witness :
  validate (one_step "call" "european") = inr tt /\
  calibrated (one_step "call" "european") /\
  exercise (one_step "call" "european") = "european"%string /\
  exists c u : R,
    binomial_option_price (with_option_type "call" (one_step "call" "european")) = inr c /\
    binomial_option_price (with_option_type "put" (one_step "call" "european")) = inr u /\
    c - u = spot (one_step "call" "european")
              * exp (- dividend_yield (one_step "call" "european")
                     * time (one_step "call" "european"))
            - strike (one_step "call" "european")
              * exp (- rate (one_step "call" "european")
                     * time (one_step "call" "european")).
Proof.
  split; [|split; [|split]].
  - apply validate_one_step; auto.
  - apply calibrated_one_step.
  - reflexivity.
  - apply (put_call_parity (one_step "call" "european")).
    + apply validate_one_step; auto.
    + apply calibrated_one_step.
    + reflexivity.
Defined.

Lemma calibrated_of_bounds (p : BinomialParameters) :
  validate p = inr tt -> 0 < volatility p ->
  lattice_down p <= lattice_growth p <= lattice_up p ->
  calibrated p.
Proof.
  intros Hv Hvol [Hlo Hhi].
  pose proof (positive_volatility_spread p Hv Hvol) as Hspread.
  unfold calibrated, derived_probability.
  destruct (Req_dec_T (lattice_up p - lattice_down p) 0) as [E|E]; [lra|].
  eexists. split; [reflexivity|]. split.
  - apply Rmult_le_pos; [lra|]. left. apply Rinv_0_lt_compat. exact Hspread.
  - apply Rmult_le_reg_r with (lattice_up p - lattice_down p); [exact Hspread|].
    unfold Rdiv. rewrite Rmult_assoc, Rinv_l by exact E. lra.
Qed.

Lemma terminal_call_floor (p : BinomialParameters) :
  option_type p = "call"%string ->
  call_floor (spot p) (strike p) (lattice_up p) (lattice_down p) (lattice_disc p)
    (Z.to_nat (steps p)) (Z.to_nat (steps p)) (terminal_values p).
Proof.
  intros Hcall. repeat split.
  - lia.
  - apply terminal_values_length.
  - rewrite terminal_values_item by assumption. apply payoff_nonneg.
  - rewrite terminal_values_item by assumption. rewrite Hcall, Nat.sub_diag.
    unfold _payoff. simpl. rewrite Rmult_1_l. apply Rmax_l.
Qed.

(** *** The one-step sample, evaluated

    With [up = e], [down = 1/e] and no drift the up-probability is
    [1 / (e + 1)]; the call pays [100 (e - 1)] in the up node and nothing in
    the down node. *)

Example one_step_call_price :
  binomial_option_price (one_step "call" "european")
  = inr (100 * (exp 1 - 1) / (exp 1 + 1)).
Proof.
  assert (Hv : validate (one_step "call" "european") = inr tt)
    by (apply validate_one_step; auto).
  destruct (calibrated_one_step "call" "european") as (q & Hq & Hrange).
  rewrite (price_calibrated _ Hv q Hq Hrange). f_equal.
  assert (He : 1 < exp 1) by (pose proof (exp_ineq1_le 1); lra).
  assert (Hdt : lattice_dt (one_step "call" "european") = 1)
    by (unfold lattice_dt; simpl; field).
  assert (Hu : lattice_up (one_step "call" "european") = exp 1).
  { unfold lattice_up. rewrite Hdt, sqrt_1. simpl. f_equal. ring. }
  assert (Hd : lattice_down (one_step "call" "european") = 1 / exp 1)
    by (unfold lattice_down; rewrite Hu; reflexivity).
  assert (Hdisc : lattice_disc (one_step "call" "european") = 1).
  { unfold lattice_disc. rewrite Hdt. simpl.
    replace (- 0 * 1) with 0 by ring. apply exp_0. }
  pose proof (probability_mixture _ q Hq) as Hmix.
  unfold lattice_growth in Hmix. rewrite Hdt, Hu, Hd in Hmix. simpl in Hmix.
  replace ((0 - 0) * 1) with 0 in Hmix by ring. rewrite exp_0 in Hmix.
  assert (Hq' : q = 1 / (exp 1 + 1)).
  { apply Rmult_eq_reg_r with ((exp 1 + 1) * (exp 1 - 1)); [|nra].
    transitivity (exp 1 * (q * exp 1 + (1 - q) * (1 / exp 1)) - 1);
      [field; lra | rewrite Hmix; field; lra]. }
  unfold lattice_root. simpl exercise. simpl String.eqb. cbv iota zeta.
  change (Z.to_nat (steps (one_step "call" "european"))) with 1%nat.
  simpl Nat.iter.
  rewrite european_round_item by (rewrite terminal_values_length; simpl; lia).
  rewrite !terminal_values_item by (simpl; lia).
  change (Z.to_nat (steps (one_step "call" "european"))) with 1%nat.
  rewrite Hdisc, Hu, Hd. simpl. unfold _payoff. simpl.
  assert (Hdown : 1 / exp 1 < 1).
  { apply Rmult_lt_reg_r with (exp 1); [lra|]. field_simplify; lra. }
  rewrite (Rmax_left (100 * (exp 1 * 1) * 1 - 100) 0) by lra.
  rewrite (Rmax_right (100 * 1 * (1 / exp 1 * 1) - 100) 0) by lra.
  rewrite Hq'. field. lra.
Qed.

(** *** The negative-rate sample *)

Lemma negative_rate_valid (style : string) :
  style = "european"%string \/ style = "american"%string ->
  validate (negative_rate style) = inr tt.
Proof.
  intros Hs. apply validate_inr. simpl.
  repeat split; try lra; try lia; auto.
Qed.

Lemma negative_rate_dt (style : string) : lattice_dt (negative_rate style) = 1.
Proof. unfold lattice_dt. simpl. field. Qed.

Lemma negative_rate_up (style : string) : lattice_up (negative_rate style) = exp 1.
Proof.
  unfold lattice_up. rewrite negative_rate_dt, sqrt_1. simpl. f_equal. ring.
Qed.

Lemma negative_rate_down (style : string) :
  lattice_down (negative_rate style) = exp (Ropp 1).
Proof.
  unfold lattice_down. rewrite negative_rate_up, exp_Ropp. field.
  apply Rgt_not_eq, exp_pos.
Qed.

Lemma negative_rate_growth (style : string) :
  lattice_growth (negative_rate style) = exp (- 0.5).
Proof. unfold lattice_growth. rewrite negative_rate_dt. simpl. f_equal. lra. Qed.

Lemma negative_rate_disc (style : string) :
  lattice_disc (negative_rate style) = exp 0.5.
Proof. unfold lattice_disc. rewrite negative_rate_dt. simpl. f_equal. lra. Qed.

Lemma negative_rate_calibrated (style : string) :
  style = "european"%string \/ style = "american"%string ->
  calibrated (negative_rate style).
Proof.
  intros Hs. apply calibrated_of_bounds.
  - apply negative_rate_valid, Hs.
  - simpl. lra.
  - rewrite negative_rate_down, negative_rate_growth, negative_rate_up.
    split; left; apply exp_increasing; lra.
Qed.

(** The European price of the negative-rate sample: both terminal nodes
    are in the money, so the root is [3 - exp 0.5]. *)
Lemma negative_rate_european (q : R) :
  derived_probability (negative_rate "european") = Some q ->
  lattice_root (negative_rate "european") q = 3 - exp 0.5.
Proof.
  intros Hq. pose proof (probability_mixture _ q Hq) as Hmix.
  pose proof (disc_times_growth (negative_rate "european")) as Hcarry.
  rewrite negative_rate_dt in Hcarry. simpl dividend_yield in Hcarry.
  replace (- 0 * 1) with 0 in Hcarry by ring. rewrite exp_0 in Hcarry.
  unfold lattice_root. simpl exercise. simpl String.eqb. cbv iota zeta.
  change (Z.to_nat (steps (negative_rate "european"))) with 1%nat.
  simpl Nat.iter.
  rewrite european_round_item by (rewrite terminal_values_length; simpl; lia).
  rewrite !terminal_values_item by (simpl; lia).
  change (Z.to_nat (steps (negative_rate "european"))) with 1%nat.
  simpl. unfold _payoff. simpl.
  set (u := lattice_up (negative_rate "european")) in *.
  set (d := lattice_down (negative_rate "european")) in *.
  set (g := lattice_growth (negative_rate "european")) in *.
  set (disc := lattice_disc (negative_rate "european")) in *.
  assert (Hu : 1 <= u) by (apply lattice_up_ge_1, negative_rate_valid; auto).
  assert (Hd : 1 <= 3 * d).
  { unfold d. unfold lattice_down. fold u.
    assert (Hu3 : u <= 3) by (unfold u; rewrite negative_rate_up; apply exp_le_3).
    apply Rmult_le_reg_r with u; [lra|]. field_simplify; lra. }
  rewrite (Rmax_left (3 * (u * 1) * 1 - 1) 0) by lra.
  rewrite (Rmax_left (3 * 1 * (d * 1) - 1) 0) by lra.
  rewrite <- (negative_rate_disc "european"). fold disc.
  transitivity (3 * (disc * (q * u + (1 - q) * d)) - disc); [ring|].
  rewrite Hmix, Hcarry. ring.
Qed.

(** C6, as stated, fails on a negative rate: a call on spot 3 struck at 1,
    one step, volatility 1, rate -0.5 and no dividend passes validation, is
    calibrated, and its American price (at least the exercise value 2) is
    above its European price [3 - exp 0.5]. *)
Lemma zero_dividend_call_premium_example :
  validate (negative_rate "european") = inr tt /\
  calibrated (negative_rate "european") /\
  option_type (negative_rate "european") = "call"%string /\
  dividend_yield (negative_rate "european") = 0 /\
  exists e a : R,
    binomial_option_price (with_exercise "european" (negative_rate "european")) = inr e /\
    binomial_option_price (with_exercise "american" (negative_rate "european")) = inr a /\
    e < a.
Proof.
  assert (Hv : forall style, style = "european"%string \/ style = "american"%string ->
                             validate (negative_rate style) = inr tt)
    by exact negative_rate_valid.
  destruct (negative_rate_calibrated "european") as (q & Hq & Hrange); [auto|].
  split; [apply Hv; auto|].
  split; [apply negative_rate_calibrated; auto|].
  split; [reflexivity|]. split; [reflexivity|].
  exists (lattice_root (negative_rate "european") q),
         (lattice_root (negative_rate "american") q).
  split; [|split].
  - apply (price_calibrated (negative_rate "european")); auto.
  - apply (price_calibrated (negative_rate "american")); auto.
  - rewrite negative_rate_european by exact Hq.
    assert (Hroot : _payoff "call" 3 1 <= lattice_root (negative_rate "american") q).
    { unfold lattice_root. simpl exercise. simpl String.eqb. cbv iota zeta.
      apply (american_loop_root 3 1). simpl. lia. }
    unfold _payoff in Hroot. simpl in Hroot.
    rewrite Rmax_left in Hroot by lra.
    assert (Hdisc : 1 < exp 0.5) by (rewrite <- exp_0; apply exp_increasing; lra).
    lra.
Qed.

(** C6, amended.  For parameters that pass validation and describe a call
    with zero dividend yield, a rate that is not negative and a derived
    risk-neutral probability in [0,1], the American price equals the
    European price for the same parameters within small numeric tolerance.
    In the exact arithmetic of this model the continuation value is at
    least the exercise value at every node, so the two prices are equal and
    agree within every tolerance; in binary64 the comparison at a node
    where both are equal in exact arithmetic is decided by rounding, and
    the two returned floats may differ in the last digits. *)
Theorem zero_dividend_call_no_premium (p : BinomialParameters) :
  validate p = inr tt -> calibrated p ->
  option_type p = "call"%string -> dividend_yield p = 0 -> 0 <= rate p ->
  exists v : R,
    binomial_option_price (with_exercise "american" p) = inr v /\
    binomial_option_price (with_exercise "european" p) = inr v.
Proof.
  intros Hv (q & Hq & Hrange) Hcall Hdiv Hrate.
  exists (lattice_root (with_exercise "european" p) q).
  split.
  - rewrite (price_calibrated (with_exercise "american" p)
               (validate_with_exercise _ p Hv (or_intror eq_refl)) q Hq Hrange).
    f_equal. unfold lattice_root. simpl exercise. simpl String.eqb. cbv iota zeta.
    simpl option_type. rewrite Hcall.
    assert (Hdt := lattice_dt_pos p Hv).
    apply (call_loops_agree (spot p) (strike p) (lattice_up p) (lattice_down p)
             (lattice_disc p) q (lattice_growth p) (Z.to_nat (steps p))).
    + exact (probability_mixture p q Hq).
    + apply exp_pos.
    + unfold lattice_disc. rewrite <- exp_0.
      destruct (Req_dec_T (- rate p * lattice_dt p) 0) as [E|E]; [rewrite E; lra|].
      left. apply exp_increasing. nra.
    + rewrite disc_times_growth, Hdiv.
      replace (- 0 * lattice_dt p) with 0 by ring. apply exp_0.
    + exact Hrange.
    + destruct (proj1 (validate_inr p) Hv) as (_ & _ & Hk & _). exact Hk.
    + apply (terminal_call_floor (with_exercise "american" p)). exact Hcall.
  - apply price_calibrated; auto using validate_with_exercise.
Qed.

Lemma zero_dividend_call_no_premium_witness :
  validate (one_step "call" "american") = inr tt /\
  calibrated (one_step "call" "american") /\
  option_type (one_step "call" "american") = "call"%string /\
  dividend_yield (one_step "call" "american") = 0 /\
  0 <= rate (one_step "call" "american") /\
  exists v : R,
    binomial_option_price (with_exercise "american" (one_step "call" "american")) = inr v /\
    binomial_option_price (with_exercise "european" (one_step "call" "american")) = inr v.
Proof.
  split; [|split; [|split; [|split; [|split]]]].
  - apply validate_one_step; auto.
  - apply calibrated_one_step.
  - reflexivity.
  - reflexivity.
  - simpl. lra.
  - apply (zero_dividend_call_no_premium (one_step "call" "american")).
    + apply validate_one_step; auto.
    + apply calibrated_one_step.
    + reflexivity.
    + reflexivity.
    + simpl. lra.
Defined.

End binomial_facts.

(** * The Monte Carlo estimator *)

Module monte_carlo_facts.
Import monte_carlo.

(** ** Rows and matrices *)

Lemma set_item_length (row : list R) (k : nat) (x : R) :
  List.length (set_item row k x) = List.length row.
Proof.
  revert k. induction row as [|hd tl IH]; intros [|k]; simpl; auto.
Qed.

Lemma item_set_item_same (row : list R) (k : nat) (x : R) :
  (k < List.length row)%nat -> item (set_item row k x) k = x.
Proof.
  unfold item. revert k. induction row as [|hd tl IH]; intros [|k] Hk; simpl in *;
    try lia; auto. apply IH. lia.
Qed.

Lemma item_set_item_other (row : list R) (k c : nat) (x : R) :
  c <> k -> item (set_item row k x) c = item row c.
Proof.
  unfold item. revert k c. induction row as [|hd tl IH]; intros [|k] [|c] Hc; simpl;
    try reflexivity; try congruence. apply IH. congruence.
Qed.

Lemma mapi_from_length (start : nat) (f : nat -> list R -> list R) (m : list (list R)) :
  List.length (mapi_from start f m) = List.length m.
Proof.
  revert start. induction m as [|row rest IH]; intros start; simpl; auto.
Qed.

Lemma nth_mapi_from (start : nat) (f : nat -> list R -> list R) (m : list (list R))
    (i : nat) :
  (i < List.length m)%nat ->
  nth i (mapi_from start f m) [] = f (start + i)%nat (nth i m []).
Proof.
  revert start i. induction m as [|row rest IH]; intros start [|i] Hi; simpl in *;
    try lia.
  - rewrite Nat.add_0_r. reflexivity.
  - rewrite IH by lia. f_equal. lia.
Qed.

Lemma mapi_length (f : nat -> list R -> list R) (m : list (list R)) :
  List.length (mapi f m) = List.length m.
Proof. apply mapi_from_length. Qed.

Lemma nth_mapi (f : nat -> list R -> list R) (m : list (list R)) (i : nat) :
  (i < List.length m)%nat -> nth i (mapi f m) [] = f i (nth i m []).
Proof. intros Hi. unfold mapi. rewrite nth_mapi_from by exact Hi. reflexivity. Qed.

Lemma np_empty_length (junk : nat -> nat -> R) (rows cols : nat) :
  List.length (np_empty junk rows cols) = rows.
Proof. unfold np_empty. rewrite length_map, length_seq. reflexivity. Qed.

Lemma np_empty_row_length (junk : nat -> nat -> R) (rows cols i : nat) :
  (i < rows)%nat -> List.length (nth i (np_empty junk rows cols) []) = cols.
Proof.
  intros Hi. unfold np_empty.
  rewrite (nth_indep _ [] (map (junk 0%nat) (seq 0 cols)))
    by (rewrite length_map, length_seq; exact Hi).
  rewrite (map_nth (fun i => map (junk i) (seq 0 cols))).
  rewrite length_map, length_seq. reflexivity.
Qed.

(** ** The path matrix *)

Section Paths.

Variables (spot0 drift diffusion : R).
Variable shocks : nat -> nat -> R.
Variables (rows cols : nat).
Hypothesis spot_pos : 0 < spot0.

Let filled := filled spot0 rows cols.




End Paths.

(** ** Validation and simulation *)

Lemma validate_paths_inr (p : MonteCarloParameters) :
  validate p = inr tt <->
  0 < spot p /\ 0 <= volatility p /\ 0 < time p /\ (0 < paths p)%Z /\ (0 < steps p)%Z.
Proof.
  unfold validate.
  destruct (Rleb (spot p) 0) eqn:Hspot.
  { apply Rleb_true in Hspot. split; [discriminate | intros (H & _); lra]. }
  apply Rleb_false in Hspot.
  destruct (Rltb (volatility p) 0) eqn:Hvol.
  { apply Rltb_true in Hvol. split; [discriminate | intros (_ & H & _); lra]. }
  apply Rltb_false in Hvol.
  destruct (Rleb (time p) 0) eqn:Htime.
  { apply Rleb_true in Htime. split; [discriminate | intros (_ & _ & H & _); lra]. }
  apply Rleb_false in Htime.
  destruct (Z.leb_spec (paths p) 0) as [Hp|Hp].
  { split; [discriminate | intros (_ & _ & _ & H & _); lia]. }
  destruct (Z.leb_spec (steps p) 0) as [Hs|Hs].
  { split; [discriminate | intros (_ & _ & _ & _ & H); lia]. }
  split; [intros _ | reflexivity]. repeat split; assumption.
Qed.

Lemma default_rng_accepts (p : MonteCarloParameters) :
  seed_accepted p -> default_rng (seed p) = inr tt.
Proof.
  unfold seed_accepted, default_rng. destruct (seed p) as [s|]; [|reflexivity].
  intros Hs. destruct (Z.ltb_spec s 0); [lia | reflexivity].
Qed.

Lemma default_rng_rejects (p : MonteCarloParameters) :
  ~ seed_accepted p -> default_rng (seed p) = inl (ValueError msg_seed).
Proof.
  unfold seed_accepted, default_rng. destruct (seed p) as [s|]; [|tauto].
  intros Hs. destruct (Z.ltb_spec s 0); [reflexivity | lia].
Qed.

Lemma simulate_paths_returns (junk shocks : nat -> nat -> R) (p : MonteCarloParameters) :
  validate p = inr tt -> seed_accepted p ->
  simulate_paths junk shocks p = inr (path_matrix junk shocks p).
Proof.
  intros Hv Hseed. unfold simulate_paths. rewrite Hv. simpl.
  rewrite (default_rng_accepts p Hseed).
  apply validate_paths_inr in Hv. destruct Hv as (_ & _ & _ & _ & Hs).
  rewrite float_div_ok by (apply not_0_IZR; lia).
  reflexivity.
Qed.

Lemma simulate_paths_bad_seed (junk shocks : nat -> nat -> R) (p : MonteCarloParameters) :
  validate p = inr tt -> ~ seed_accepted p ->
  simulate_paths junk shocks p = inl (ValueError msg_seed).
Proof.
  intros Hv Hseed. unfold simulate_paths. rewrite Hv. simpl.
  rewrite (default_rng_rejects p Hseed). reflexivity.
Qed.


Lemma validate_two_paths : validate two_paths = inr tt.
Proof. apply validate_paths_inr. simpl. repeat split; try lra; lia. Qed.

Lemma seed_two_paths : seed_accepted two_paths.
Proof. unfold seed_accepted. simpl. lia. Qed.

Lemma validate_negative_seed : validate negative_seed = inr tt.
Proof. apply validate_paths_inr. simpl. repeat split; try lra; lia. Qed.





(** ** Shapes *)









(** ** The estimator *)







End monte_carlo_facts.

(** * Further properties of the lattice *)

Module lattice_facts.
Import binomial_model binomial_facts lattice_terms.

(** ** Without volatility *)

Lemma exp_le_iff (a b : R) : exp a <= exp b <-> a <= b.
Proof.
  split; intros H.
  - destruct (Rle_dec a b) as [Hab|Hab]; [exact Hab|].
    assert (exp b < exp a) by (apply exp_increasing; lra). lra.
  - destruct H as [H|H]; [left; apply exp_increasing, H | rewrite H; lra].
Qed.



(** ** The European price as an expectation *)

Lemma sum_shift (f : nat -> R) (N : nat) :
  sum_f_R0 f (S N) = f 0%nat + sum_f_R0 (fun i => f (S i)) N.
Proof.
  induction N as [|N IH].
  - simpl. reflexivity.
  - rewrite tech5, IH. simpl. ring.
Qed.

Lemma C_zero (n : nat) : C n 0 = 1.
Proof.
  unfold C. rewrite Nat.sub_0_r. simpl fact. simpl INR. field.
  apply INR_fact_neq_0.
Qed.

Lemma C_diag (n : nat) : C n n = 1.
Proof.
  unfold C. rewrite Nat.sub_diag. simpl fact. simpl INR. field.
  apply INR_fact_neq_0.
Qed.

Lemma expectation_step (p q : R) (k : nat) (a : nat -> R) :
  sum_f_R0 (fun i => C (S k) i * p ^ i * q ^ (S k - i) * a i) (S k) =
  p * sum_f_R0 (fun i => C k i * p ^ i * q ^ (k - i) * a (S i)) k
  + q * sum_f_R0 (fun i => C k i * p ^ i * q ^ (k - i) * a i) k.
Proof.
  destruct k as [|k].
  - simpl. rewrite !C_zero, !C_diag. ring.
  - rewrite sum_shift.
    rewrite (tech5 (fun i => C (S (S k)) (S i) * p ^ S i * q ^ (S (S k) - S i) * a (S i))).
    rewrite (tech5 (fun i => C (S k) i * p ^ i * q ^ (S k - i) * a (S i))).
    rewrite (sum_shift (fun i => C (S k) i * p ^ i * q ^ (S k - i) * a i)).
    rewrite !C_zero, !C_diag, !Nat.sub_diag, !Nat.sub_0_r.
    rewrite (sum_eq (fun i => C (S (S k)) (S i) * p ^ S i * q ^ (S (S k) - S i) * a (S i))
               (fun i => (C (S k) i * p ^ i * q ^ (S k - i) * a (S i)) * p
                         + (C (S k) (S i) * p ^ S i * q ^ (S k - S i) * a (S i)) * q)).
    + rewrite sum_plus, <- !scal_sum.
      simpl pow. ring.
    + intros i Hi. rewrite <- (pascal (S k) i) by lia.
      replace (S (S k) - S i)%nat with (S (S k - S i)) by lia.
      replace (S k - i)%nat with (S (S k - S i)) by lia.
      simpl pow. ring.
Qed.

Lemma european_rounds_length (disc prob : R) (k : nat) (v : list R) :
  List.length (Nat.iter k (european_round disc prob) v) = (List.length v - k)%nat.
Proof.
  induction k as [|k IH]; simpl.
  - lia.
  - rewrite european_round_length, IH. lia.
Qed.

(** After [k] rounds, entry [j] is the discounted expectation of the
    entries [j .. j + k] of the list the rounds started from. *)
Lemma european_rounds_expectation (disc prob : R) (k : nat) (v : list R) (j : nat) :
  (j + k < List.length v)%nat ->
  item (Nat.iter k (european_round disc prob) v) j =
  disc ^ k * binomial_expectation prob k (fun i => item v (j + i)).
Proof.
  unfold binomial_expectation. revert j. induction k as [|k IH]; intros j Hj.
  - simpl. rewrite C_zero, Nat.add_0_r. ring.
  - simpl Nat.iter.
    rewrite european_round_item by (rewrite european_rounds_length; lia).
    rewrite (IH (j + 1)%nat), (IH j) by lia.
    rewrite (expectation_step prob (1 - prob) k (fun i => item v (j + i))).
    rewrite (sum_eq (fun i => C k i * prob ^ i * (1 - prob) ^ (k - i) * item v (j + 1 + i))
               (fun i => C k i * prob ^ i * (1 - prob) ^ (k - i) * item v (j + S i)))
      by (intros i _; do 2 f_equal; lia).
    simpl pow. ring.
Qed.

(** The European price is the discounted risk-neutral expectation of the
    terminal payoff: exp(-rate * time) times the sum over the number [j] of
    up moves of C(n, j) prob^j (1 - prob)^(n - j) payoff(spot up^j down^(n-j)). *)
Theorem european_price_expectation (p : BinomialParameters) :
  validate p = inr tt -> calibrated p -> exercise p = "european"%string ->
  exists q : R,
    derived_probability p = Some q /\
    binomial_option_price p =
    inr (exp (- rate p * time p)
         * binomial_expectation q (Z.to_nat (steps p)) (terminal_payoff p)).
Proof.
  intros Hv (q & Hq & Hrange) Hex. exists q. split; [exact Hq|].
  rewrite (price_calibrated p Hv q Hq Hrange). f_equal.
  unfold lattice_root. rewrite Hex. simpl String.eqb. cbv iota zeta.
  rewrite european_rounds_expectation by (rewrite terminal_values_length; lia).
  rewrite (disc_pow_steps p Hv). f_equal.
  unfold binomial_expectation. apply sum_eq. intros i Hi.
  rewrite Nat.add_0_l, terminal_values_item by exact Hi. reflexivity.
Qed.

Lemma european_price_expectation_witness :
  validate (one_step "put" "european") = inr tt /\
  calibrated (one_step "put" "european") /\
  exercise (one_step "put" "european") = "european"%string /\
  exists q : R,
    derived_probability (one_step "put" "european") = Some q /\
    binomial_option_price (one_step "put" "european") =
    inr (exp (- rate (one_step "put" "european") * time (one_step "put" "european"))
         * binomial_expectation q (Z.to_nat (steps (one_step "put" "european")))
             (terminal_payoff (one_step "put" "european"))).
Proof.
  split; [apply validate_one_step; auto|].
  split; [apply calibrated_one_step|].
  split; [reflexivity|].
  apply (european_price_expectation (one_step "put" "european")).
  - apply validate_one_step; auto.
  - apply calibrated_one_step.
  - reflexivity.
Defined.

(** ** Comparing two lattices that share their moves *)

Section Comparison.

Variables (up down disc prob : R).
Variables (spot_a strike_a spot_b strike_b : R).
Variables (pay_a pay_b : R -> R -> R).
Hypothesis disc_pos : 0 < disc.
Hypothesis prob_range : 0 <= prob <= 1.

Lemma european_round_dominated (m : nat) (v w : list R) :
  dominated (S m) v w ->
  dominated m (european_round disc prob v) (european_round disc prob w).
Proof.
  intros (Hv & Hw & Hle). repeat split.
  - rewrite european_round_length, Hv. lia.
  - rewrite european_round_length, Hw. lia.
  - intros j Hj. rewrite !european_round_item by (rewrite ?Hv, ?Hw; lia).
    apply mixture_monotone; try assumption; apply Hle; lia.
Qed.

Lemma european_loop_dominated (n : nat) (v w : list R) :
  dominated n v w ->
  item (Nat.iter n (european_round disc prob) v) 0
  <= item (Nat.iter n (european_round disc prob) w) 0.
Proof.
  intros H. rewrite !iter_descend.
  apply (descend_relation (fun _ => european_round disc prob)
           (fun _ => european_round disc prob) dominated) in H.
  - destruct H as (_ & _ & H). apply H. lia.
  - intros m a b. apply european_round_dominated.
Qed.

(** The exercise value of lattice [a] is at most that of lattice [b] at
    every node. *)
Hypothesis exercise_le : forall m j : nat,
  pay_a (spot_a * up ^ j * down ^ (m - j)) strike_a
  <= pay_b (spot_b * up ^ j * down ^ (m - j)) strike_b.

Lemma american_round_dominated (m : nat) (v w : list R) :
  dominated (S m) v w ->
  dominated m (american_round spot_a strike_a up down disc prob pay_a v m)
              (american_round spot_b strike_b up down disc prob pay_b w m).
Proof.
  intros (Hv & Hw & Hle). repeat split.
  - rewrite american_round_length. lia.
  - rewrite american_round_length. lia.
  - intros j Hj. rewrite !american_round_item by exact Hj.
    apply Rmax_lub.
    + eapply Rle_trans; [|apply Rmax_l].
      apply mixture_monotone; try assumption; apply Hle; lia.
    + eapply Rle_trans; [|apply Rmax_r]. apply exercise_le.
Qed.

Lemma american_loop_dominated (n : nat) (v w : list R) :
  dominated n v w ->
  item (fold_left (american_round spot_a strike_a up down disc prob pay_a)
          (rev (seq 0 n)) v) 0
  <= item (fold_left (american_round spot_b strike_b up down disc prob pay_b)
             (rev (seq 0 n)) w) 0.
Proof.
  intros H. rewrite !fold_rev_seq_descend.
  apply (descend_relation
           (fun m x => american_round spot_a strike_a up down disc prob pay_a x m)
           (fun m x => american_round spot_b strike_b up down disc prob pay_b x m)
           dominated) in H.
  - destruct H as (_ & _ & H). apply H. lia.
  - intros m a b. apply american_round_dominated.
Qed.

End Comparison.

(** The root of lattice [a] is at most the root of lattice [b] when the
    two share moves, style and step count and the payoff of [a] is at most
    the payoff of [b] at every node. *)
Lemma lattice_root_dominated (a b : BinomialParameters) (q : R) :
  0 <= q <= 1 ->
  lattice_up a = lattice_up b -> lattice_down a = lattice_down b ->
  lattice_disc a = lattice_disc b -> steps a = steps b -> exercise a = exercise b ->
  (forall m j : nat,
     _payoff (option_type a) (spot a * lattice_up a ^ j * lattice_down a ^ (m - j))
       (strike a)
     <= _payoff (option_type b) (spot b * lattice_up a ^ j * lattice_down a ^ (m - j))
          (strike b)) ->
  lattice_root a q <= lattice_root b q.
Proof.
  intros Hrange Hup Hdown Hdisc Hsteps Hex Hpay.
  assert (Hterm : dominated (Z.to_nat (steps a)) (terminal_values a) (terminal_values b)).
  { repeat split.
    - apply terminal_values_length.
    - rewrite Hsteps. apply terminal_values_length.
    - intros j Hj. rewrite !terminal_values_item by (rewrite <- ?Hsteps; exact Hj).
      rewrite <- Hup, <- Hdown, <- Hsteps. apply Hpay. }
  unfold lattice_root. rewrite <- Hex, <- Hup, <- Hdown, <- Hdisc, <- Hsteps.
  destruct (String.eqb (exercise a) "european").
  - apply european_loop_dominated; [apply exp_pos | exact Hrange | exact Hterm].
  - apply american_loop_dominated; [apply exp_pos | exact Hrange | exact Hpay | exact Hterm].
Qed.

(** ** Monotonicity in the strike and in the spot *)

(** Raising the strike never raises the price of a call and never lowers
    the price of a put, for either exercise style. *)
Theorem price_monotone_in_strike (p : BinomialParameters) (k2 : R) :
  validate p = inr tt -> calibrated p -> strike p <= k2 ->
  exists v1 v2 : R,
    binomial_option_price p = inr v1 /\
    binomial_option_price (with_strike k2 p) = inr v2 /\
    (option_type p = "call"%string -> v2 <= v1) /\
    (option_type p = "put"%string -> v1 <= v2).
Proof.
  intros Hv (q & Hq & Hrange) Hk.
  assert (Hv2 : validate (with_strike k2 p) = inr tt).
  { apply validate_inr. apply validate_inr in Hv. simpl.
    destruct Hv as (H1 & H2 & H3 & H4 & H5 & H6 & H7). repeat split; auto; lra. }
  exists (lattice_root p q), (lattice_root (with_strike k2 p) q).
  split; [apply price_calibrated; assumption|].
  split; [apply (price_calibrated (with_strike k2 p) Hv2 q Hq Hrange)|].
  split; intros Hkind.
  - apply lattice_root_dominated; try reflexivity; try exact Hrange.
    intros m j. simpl. rewrite Hkind. unfold _payoff. simpl.
    apply Rle_max_compat_r. lra.
  - apply lattice_root_dominated; try reflexivity; try exact Hrange.
    intros m j. simpl. rewrite Hkind. unfold _payoff. simpl.
    apply Rle_max_compat_r. lra.
Qed.

Lemma price_monotone_in_strike_witness :
  validate (one_step "put" "american") = inr tt /\
  calibrated (one_step "put" "american") /\
  strike (one_step "put" "american") <= 120 /\
  exists v1 v2 : R,
    binomial_option_price (one_step "put" "american") = inr v1 /\
    binomial_option_price (with_strike 120 (one_step "put" "american")) = inr v2 /\
    (option_type (one_step "put" "american") = "call"%string -> v2 <= v1) /\
    (option_type (one_step "put" "american") = "put"%string -> v1 <= v2).
Proof.
  split; [apply validate_one_step; auto|].
  split; [apply calibrated_one_step|].
  split; [simpl; lra|].
  apply (price_monotone_in_strike (one_step "put" "american") 120).
  - apply validate_one_step; auto.
  - apply calibrated_one_step.
  - simpl. lra.
Defined.

(** Raising the spot never lowers the price of a call and never raises the
    price of a put, for either exercise style. *)
Theorem price_monotone_in_spot (p : BinomialParameters) (s2 : R) :
  validate p = inr tt -> calibrated p -> spot p <= s2 ->
  exists v1 v2 : R,
    binomial_option_price p = inr v1 /\
    binomial_option_price (with_spot s2 p) = inr v2 /\
    (option_type p = "call"%string -> v1 <= v2) /\
    (option_type p = "put"%string -> v2 <= v1).
Proof.
  intros Hv (q & Hq & Hrange) Hs.
  assert (Hv2 : validate (with_spot s2 p) = inr tt).
  { apply validate_inr. pose proof (proj1 (validate_inr p) Hv) as Hv'. simpl.
    destruct Hv' as (H1 & H2 & H3 & H4 & H5 & H6 & H7). repeat split; auto; lra. }
  assert (Hnode : forall m j : nat,
            spot p * lattice_up p ^ j * lattice_down p ^ (m - j)
            <= s2 * lattice_up p ^ j * lattice_down p ^ (m - j)).
  { intros m j. rewrite !Rmult_assoc. apply Rmult_le_compat_r; [|exact Hs].
    apply Rmult_le_pos; apply pow_le; left;
      [apply lattice_up_pos | apply lattice_down_pos]. }
  exists (lattice_root p q), (lattice_root (with_spot s2 p) q).
  split; [apply price_calibrated; assumption|].
  split; [apply (price_calibrated (with_spot s2 p) Hv2 q Hq Hrange)|].
  split; intros Hkind.
  - apply lattice_root_dominated; try reflexivity; try exact Hrange.
    intros m j. simpl. rewrite Hkind. unfold _payoff. simpl.
    apply Rle_max_compat_r. pose proof (Hnode m j). lra.
  - apply lattice_root_dominated; try reflexivity; try exact Hrange.
    intros m j. simpl. rewrite Hkind. unfold _payoff. simpl.
    change (lattice_up (with_spot s2 p)) with (lattice_up p).
    change (lattice_down (with_spot s2 p)) with (lattice_down p).
    apply Rle_max_compat_r. pose proof (Hnode m j). lra.
Qed.

Lemma price_monotone_in_spot_witness :
  validate (one_step "call" "american") = inr tt /\
  calibrated (one_step "call" "american") /\
  spot (one_step "call" "american") <= 120 /\
  exists v1 v2 : R,
    binomial_option_price (one_step "call" "american") = inr v1 /\
    binomial_option_price (with_spot 120 (one_step "call" "american")) = inr v2 /\
    (option_type (one_step "call" "american") = "call"%string -> v1 <= v2) /\
    (option_type (one_step "call" "american") = "put"%string -> v2 <= v1).
Proof.
  split; [apply validate_one_step; auto|].
  split; [apply calibrated_one_step|].
  split; [simpl; lra|].
  apply (price_monotone_in_spot (one_step "call" "american") 120).
  - apply validate_one_step; auto.
  - apply calibrated_one_step.
  - simpl. lra.
Defined.

(** ** A put that is never exercised early *)

Section PutFloor.

Variables (spot0 strike0 up down disc prob growth : R).
Variable n : nat.
Hypothesis mixture : prob * up + (1 - prob) * down = growth.
Hypothesis disc_ge_1 : 1 <= disc.
Hypothesis carry_range : 0 < disc * growth <= 1.
Hypothesis prob_range : 0 <= prob <= 1.
Hypothesis strike_pos : 0 < strike0.
Hypothesis spot_pos : 0 < spot0.
Hypothesis up_pos : 0 < up.
Hypothesis down_pos : 0 < down.

Let floor := put_floor spot0 strike0 up down disc growth n.
Let same_floor := same_put_floor spot0 strike0 up down disc growth n.

Lemma carry_pow_range (k : nat) : 0 < (disc * growth) ^ k <= 1.
Proof.
  induction k as [|k IH]; simpl; [lra|].
  destruct IH as [IH0 IH1]. split; [apply Rmult_lt_0_compat; lra | nra].
Qed.

Lemma disc_pow_ge_1 (k : nat) : 1 <= disc ^ k.
Proof. induction k as [|k IH]; simpl; [lra | nra]. Qed.

Lemma put_floor_european_round (m : nat) (v : list R) :
  floor (S m) v -> floor m (european_round disc prob v).
Proof.
  intros (Hm & Hlen & Hfloor). repeat split.
  - lia.
  - rewrite european_round_length, Hlen. lia.
  - rewrite european_round_item by (rewrite Hlen; lia).
    destruct (Hfloor j ltac:(lia)) as [H0 _].
    destruct (Hfloor (j + 1)%nat ltac:(lia)) as [H1 _].
    apply mixture_nonneg; try assumption. lra.
  - rewrite european_round_item by (rewrite Hlen; lia).
    destruct (Hfloor j ltac:(lia)) as [_ H0].
    destruct (Hfloor (j + 1)%nat ltac:(lia)) as [_ H1].
    replace (S m - (j + 1))%nat with (m - j)%nat in H1 by lia.
    replace (S m - j)%nat with (S (m - j)) in H0 by lia.
    replace (n - m)%nat with (S (n - S m)) by lia.
    rewrite Nat.add_1_r in H1. simpl pow in H0, H1 |- *.
    set (b := disc ^ (n - S m)) in *.
    set (c := (disc * growth) ^ (n - S m)) in *.
    set (x := up ^ j) in *. set (y := down ^ (m - j)) in *.
    rewrite Nat.add_1_r.
    assert (Hdisc : 0 < disc) by lra.
    eapply Rle_trans;
      [|apply (mixture_monotone disc prob Hdisc prob_range _ _ _ _ H0 H1)].
    right.
    transitivity (disc * b * strike0
                  - disc * c * (spot0 * x * y) * (prob * up + (1 - prob) * down));
      [|ring].
    rewrite mixture. ring.
Qed.

Lemma put_never_exercised (m : nat) (v : list R) :
  floor (S m) v ->
  american_round spot0 strike0 up down disc prob (_payoff "put") v m
  = european_round disc prob v.
Proof.
  intros Hv. pose proof (put_floor_european_round m v Hv) as (_ & _ & Hfloor).
  destruct Hv as (Hm & Hlen & _).
  unfold american_round, european_round.
  replace (List.length v - 1)%nat with (m + 1)%nat by lia.
  apply map_ext_in. intros j Hj. apply in_seq in Hj. cbv zeta.
  destruct (Hfloor j ltac:(lia)) as [H0 H1].
  rewrite european_round_item in H0, H1 by (rewrite Hlen; lia).
  apply Rmax_left. unfold _payoff. simpl.
  pose proof (carry_pow_range (n - m)) as [Hc0 Hc1].
  pose proof (disc_pow_ge_1 (n - m)) as Hd.
  apply Rmax_lub; [|exact H0].
  eapply Rle_trans; [|exact H1].
  assert (Hnode : 0 < spot0 * up ^ j * down ^ (m - j)).
  { apply Rmult_lt_0_compat; [apply Rmult_lt_0_compat; [exact spot_pos|]|];
      apply pow_lt; assumption. }
  assert (strike0 <= disc ^ (n - m) * strike0) by nra.
  assert ((disc * growth) ^ (n - m) * (spot0 * up ^ j * down ^ (m - j))
          <= spot0 * up ^ j * down ^ (m - j)) by nra.
  lra.
Qed.

Lemma put_loops_agree (v : list R) :
  floor n v ->
  item (fold_left (american_round spot0 strike0 up down disc prob (_payoff "put"))
          (rev (seq 0 n)) v) 0
  = item (Nat.iter n (european_round disc prob) v) 0.
Proof.
  intros H. rewrite iter_descend, fold_rev_seq_descend.
  assert (Hrel : same_floor n v v) by (split; [reflexivity | exact H]).
  apply (descend_relation
           (fun m x => american_round spot0 strike0 up down disc prob (_payoff "put") x m)
           (fun _ => european_round disc prob) same_floor) in Hrel.
  - destruct Hrel as [Heq _]. rewrite Heq. reflexivity.
  - intros m a b [Hab Ha]. subst b. split.
    + apply put_never_exercised. exact Ha.
    + rewrite put_never_exercised by exact Ha.
      apply put_floor_european_round. exact Ha.
Qed.

End PutFloor.

Lemma terminal_put_floor (p : BinomialParameters) :
  option_type p = "put"%string ->
  put_floor (spot p) (strike p) (lattice_up p) (lattice_down p) (lattice_disc p)
    (lattice_growth p) (Z.to_nat (steps p)) (Z.to_nat (steps p)) (terminal_values p).
Proof.
  intros Hput. repeat split.
  - lia.
  - apply terminal_values_length.
  - rewrite terminal_values_item by assumption. apply payoff_nonneg.
  - rewrite terminal_values_item by assumption. rewrite Hput, Nat.sub_diag.
    unfold _payoff. simpl. rewrite !Rmult_1_l. apply Rmax_l.
Qed.

(** With a rate that is not positive and a dividend yield that is not
    negative, the American price of a put equals its European price within
    small numeric tolerance.  In the exact arithmetic of this model the
    continuation value of the put is at least its exercise value at every
    node, so the two prices are equal; in binary64 a tie is decided by
    rounding and the two returned floats may differ in the last digits. *)
Theorem nonpositive_rate_put_no_premium (p : BinomialParameters) :
  validate p = inr tt -> calibrated p ->
  option_type p = "put"%string -> rate p <= 0 -> 0 <= dividend_yield p ->
  exists v : R,
    binomial_option_price (with_exercise "american" p) = inr v /\
    binomial_option_price (with_exercise "european" p) = inr v.
Proof.
  intros Hv (q & Hq & Hrange) Hput Hrate Hdiv.
  exists (lattice_root (with_exercise "european" p) q).
  split.
  - rewrite (price_calibrated (with_exercise "american" p)
               (validate_with_exercise _ p Hv (or_intror eq_refl)) q Hq Hrange).
    f_equal. unfold lattice_root. simpl exercise. simpl String.eqb. cbv iota zeta.
    simpl option_type. rewrite Hput.
    assert (Hdt := lattice_dt_pos p Hv).
    destruct (proj1 (validate_inr p) Hv) as (_ & Hs & Hk & _).
    apply (put_loops_agree (spot p) (strike p) (lattice_up p) (lattice_down p)
             (lattice_disc p) q (lattice_growth p) (Z.to_nat (steps p))).
    + exact (probability_mixture p q Hq).
    + unfold lattice_disc. rewrite <- exp_0. apply exp_le_iff. nra.
    + rewrite disc_times_growth. split; [apply exp_pos|].
      rewrite <- exp_0. apply exp_le_iff. nra.
    + exact Hrange.
    + exact Hk.
    + exact Hs.
    + apply lattice_up_pos.
    + apply lattice_down_pos.
    + apply (terminal_put_floor (with_exercise "american" p)). exact Hput.
  - apply price_calibrated; auto using validate_with_exercise.
Qed.

Lemma nonpositive_rate_put_no_premium_witness :
  validate (one_step "put" "american") = inr tt /\
  calibrated (one_step "put" "american") /\
  option_type (one_step "put" "american") = "put"%string /\
  rate (one_step "put" "american") <= 0 /\
  0 <= dividend_yield (one_step "put" "american") /\
  exists v : R,
    binomial_option_price (with_exercise "american" (one_step "put" "american")) = inr v /\
    binomial_option_price (with_exercise "european" (one_step "put" "american")) = inr v.
Proof.
  split; [apply validate_one_step; auto|].
  split; [apply calibrated_one_step|].
  split; [reflexivity|].
  split; [simpl; lra|].
  split; [simpl; lra|].
  apply (nonpositive_rate_put_no_premium (one_step "put" "american")).
  - apply validate_one_step; auto.
  - apply calibrated_one_step.
  - reflexivity.
  - simpl. lra.
  - simpl. lra.
Defined.

End lattice_facts.

(** * Further properties of the simulation *)

Module simulation_facts.
Import monte_carlo monte_carlo_facts simulation_terms.

(** ** Errors before any path is simulated *)

Lemma validate_paths_inl (p : MonteCarloParameters) :
  spot p <= 0 \/ volatility p < 0 \/ time p <= 0 \/ (paths p <= 0)%Z \/ (steps p <= 0)%Z ->
  exists e, validate p = inl e.
Proof.
  intros H. destruct (validate p) as [e|[]] eqn:Hv; [exists e; reflexivity|].
  exfalso. apply validate_paths_inr in Hv.
  destruct Hv as (H1 & H2 & H3 & H4 & H5).
  destruct H as [H|[H|[H|[H|H]]]]; try lia; lra.
Qed.

Lemma validate_paths_error_kind (p : MonteCarloParameters) (e : exn) :
  validate p = inl e ->
  In e [ValueError msg_spot; ValueError msg_volatility; ValueError msg_time;
        ValueError msg_paths; ValueError msg_steps].
Proof.
  unfold validate.
  repeat match goal with
         | |- context [if ?b then _ else _] => destruct b
         end;
    simpl; intros H; inversion H; subst; simpl; tauto.
Qed.

(** If spot <= 0, volatility < 0, time <= 0, paths <= 0 or steps <= 0,
    [simulate_paths] raises one of the five errors of [validate], and
    [monte_carlo_price] raises the same error whatever the payoff is: the
    payoff is not consulted. *)
Theorem invalid_parameters_raise (junk shocks : nat -> nat -> R)
    (p : MonteCarloParameters) :
  spot p <= 0 \/ volatility p < 0 \/ time p <= 0 \/ (paths p <= 0)%Z \/ (steps p <= 0)%Z ->
  exists e : exn,
    In e [ValueError msg_spot; ValueError msg_volatility; ValueError msg_time;
          ValueError msg_paths; ValueError msg_steps] /\
    simulate_paths junk shocks p = inl e /\
    forall payoff : list (list R) -> list pyvalue,
      monte_carlo_price junk shocks p payoff = inl e.
Proof.
  intros H. destruct (validate_paths_inl p H) as [e He]. exists e.
  assert (Hsim : simulate_paths junk shocks p = inl e)
    by (unfold simulate_paths; rewrite He; reflexivity).
  split; [apply (validate_paths_error_kind p e He)|]. split; [exact Hsim|].
  intros payoff. unfold monte_carlo_price. rewrite Hsim. reflexivity.
Qed.

Lemma invalid_parameters_raise_witness :
  (spot without_paths <= 0 \/ volatility without_paths < 0 \/ time without_paths <= 0 \/
   (paths without_paths <= 0)%Z \/ (steps without_paths <= 0)%Z) /\
  exists e : exn,
    In e [ValueError msg_spot; ValueError msg_volatility; ValueError msg_time;
          ValueError msg_paths; ValueError msg_steps] /\
    simulate_paths no_shock no_shock without_paths = inl e /\
    forall payoff : list (list R) -> list pyvalue,
      monte_carlo_price no_shock no_shock without_paths payoff = inl e.
Proof.
  assert (H : spot without_paths <= 0 \/ volatility without_paths < 0 \/
              time without_paths <= 0 \/
              (paths without_paths <= 0)%Z \/ (steps without_paths <= 0)%Z)
    by (right; right; right; left; simpl; lia).
  split; [exact H|].
  apply (invalid_parameters_raise no_shock no_shock without_paths). exact H.
Defined.

(** A negative seed passes [validate], and then [simulate_paths] and
    [monte_carlo_price] both raise the error of the generator, whatever
    the payoff is. *)
Theorem negative_seed_raises (junk shocks : nat -> nat -> R)
    (p : MonteCarloParameters) (s : Z) :
  validate p = inr tt -> seed p = Some s -> (s < 0)%Z ->
  simulate_paths junk shocks p = inl (ValueError msg_seed) /\
  forall payoff : list (list R) -> list pyvalue,
    monte_carlo_price junk shocks p payoff = inl (ValueError msg_seed).
Proof.
  intros Hv Hseed Hs.
  assert (Hsim : simulate_paths junk shocks p = inl (ValueError msg_seed)).
  { apply simulate_paths_bad_seed; [exact Hv|].
    unfold seed_accepted. rewrite Hseed. lia. }
  split; [exact Hsim|].
  intros payoff. unfold monte_carlo_price. rewrite Hsim. reflexivity.
Qed.

Lemma negative_seed_raises_witness :
  validate negative_seed = inr tt /\ seed negative_seed = Some (-1)%Z /\ (-1 < 0)%Z /\
  simulate_paths no_shock no_shock negative_seed = inl (ValueError msg_seed) /\
  forall payoff : list (list R) -> list pyvalue,
    monte_carlo_price no_shock no_shock negative_seed payoff
    = inl (ValueError msg_seed).
Proof.
  split; [exact validate_negative_seed|]. split; [reflexivity|]. split; [lia|].
  apply (negative_seed_raises no_shock no_shock negative_seed (-1)).
  - exact validate_negative_seed.
  - reflexivity.
  - lia.
Defined.

(** ** The paths in closed form *)

Section Tracking.

Variables (spot0 drift diffusion : R).
Variable shocks : nat -> nat -> R.
Variables (rows cols : nat).

Let tracks := tracks spot0 drift diffusion shocks rows cols.

Lemma tracks_initial (junk : nat -> nat -> R) :
  (0 < cols)%nat ->
  tracks 0 (mapi (fun _ row => set_item row 0 spot0) (np_empty junk rows cols)).
Proof.
  intros Hcols. split.
  - rewrite mapi_length, np_empty_length. reflexivity.
  - intros i Hi. rewrite nth_mapi by (rewrite np_empty_length; exact Hi).
    pose proof (np_empty_row_length junk rows cols i Hi) as Hlen.
    rewrite set_item_length. split; [exact Hlen|].
    intros c Hc. replace c with 0%nat by lia.
    rewrite item_set_item_same by lia.
    unfold gbm_price. simpl. rewrite Rmult_0_l, Rmult_0_r, Rplus_0_r, exp_0. ring.
Qed.

Lemma tracks_advance (k : nat) (m : list (list R)) :
  (S k < cols)%nat -> tracks k m ->
  tracks (S k) (advance drift diffusion shocks m (S k)).
Proof.
  intros Hk (Hrows & Htrack). unfold advance. split.
  - rewrite mapi_length. exact Hrows.
  - intros i Hi. rewrite nth_mapi by (rewrite Hrows; exact Hi).
    destruct (Htrack i Hi) as (Hlen & Hval).
    rewrite set_item_length. split; [exact Hlen|].
    intros c Hc. destruct (Nat.eq_dec c (S k)) as [->|Hne].
    + rewrite item_set_item_same by lia.
      replace (S k - 1)%nat with k by lia.
      rewrite Hval by lia. unfold gbm_price.
      rewrite Rmult_assoc, <- exp_plus. f_equal. f_equal.
      rewrite S_INR. simpl. ring.
    + rewrite item_set_item_other by exact Hne. apply Hval. lia.
Qed.

Lemma tracks_loop (len k : nat) (m : list (list R)) :
  (k + len < cols)%nat -> tracks k m ->
  tracks (k + len) (fold_left (advance drift diffusion shocks) (seq (S k) len) m).
Proof.
  revert k m. induction len as [|len IH]; intros k m Hlen Hm.
  - rewrite Nat.add_0_r. exact Hm.
  - simpl. replace (k + S len)%nat with (S k + len)%nat by lia.
    apply IH; [lia|]. apply tracks_advance; [lia | exact Hm].
Qed.

End Tracking.

Lemma path_matrix_tracks (junk shocks : nat -> nat -> R) (p : MonteCarloParameters) :
  validate p = inr tt ->
  tracks (spot p) (step_drift p) (step_diffusion p) shocks
    (Z.to_nat (paths p)) (Z.to_nat (steps p + 1)) (Z.to_nat (steps p))
    (path_matrix junk shocks p).
Proof.
  intros Hv. apply validate_paths_inr in Hv. destruct Hv as (_ & _ & _ & Hp & Hs).
  unfold path_matrix, step_drift, step_diffusion. cbv zeta.
  apply (tracks_loop (spot p) _ _ shocks _ _ (Z.to_nat (steps p)) 0).
  - lia.
  - apply tracks_initial. lia.
Qed.

(** Entry [c] of path [i] is the spot times the exponential of [c] drifts
    plus the diffusion times the sum of the first [c] shocks of the path:
    the exact solution of geometric Brownian motion on the grid. *)
Theorem simulate_paths_closed_form (junk shocks : nat -> nat -> R)
    (p : MonteCarloParameters) :
  validate p = inr tt -> seed_accepted p ->
  exists m : list (list R),
    simulate_paths junk shocks p = inr m /\
    forall i c : nat,
      (Z.of_nat i < paths p)%Z -> (Z.of_nat c <= steps p)%Z ->
      item (nth i m []) c =
      spot p * exp (INR c * step_drift p + step_diffusion p * shock_sum shocks i c).
Proof.
  intros Hv Hseed. exists (path_matrix junk shocks p).
  split; [apply simulate_paths_returns; assumption|].
  destruct (path_matrix_tracks junk shocks p Hv) as (_ & Htrack).
  intros i c Hi Hc. destruct (Htrack i ltac:(lia)) as (_ & Hval).
  apply Hval. lia.
Qed.

Lemma simulate_paths_closed_form_witness :
  validate two_paths = inr tt /\ seed_accepted two_paths /\
  exists m : list (list R),
    simulate_paths no_shock no_shock two_paths = inr m /\
    forall i c : nat,
      (Z.of_nat i < paths two_paths)%Z -> (Z.of_nat c <= steps two_paths)%Z ->
      item (nth i m []) c =
      spot two_paths
      * exp (INR c * step_drift two_paths
             + step_diffusion two_paths * shock_sum no_shock i c).
Proof.
  split; [exact validate_two_paths|]. split; [exact seed_two_paths|].
  apply (simulate_paths_closed_form no_shock no_shock two_paths).
  - exact validate_two_paths.
  - exact seed_two_paths.
Defined.

Lemma path_matrix_ignores_junk (junk1 junk2 shocks : nat -> nat -> R)
    (p : MonteCarloParameters) :
  validate p = inr tt -> path_matrix junk1 shocks p = path_matrix junk2 shocks p.
Proof.
  intros Hv.
  destruct (path_matrix_tracks junk1 shocks p Hv) as (Hrows1 & H1).
  destruct (path_matrix_tracks junk2 shocks p Hv) as (Hrows2 & H2).
  apply (nth_ext _ _ [] []); [congruence|].
  intros i Hi. rewrite Hrows1 in Hi.
  destruct (H1 i Hi) as (Hlen1 & Hval1). destruct (H2 i Hi) as (Hlen2 & Hval2).
  apply (nth_ext _ _ 0 0); [congruence|].
  intros c Hc. rewrite Hlen1 in Hc.
  apply validate_paths_inr in Hv. destruct Hv as (_ & _ & _ & _ & Hs).
  change (item (nth i (path_matrix junk1 shocks p) []) c
          = item (nth i (path_matrix junk2 shocks p) []) c).
  rewrite Hval1, Hval2 by lia. reflexivity.
Qed.

(** Neither the matrix returned by [simulate_paths] nor the price
    returned by [monte_carlo_price] depends on what [np.empty] left in
    memory: every entry is written before it is read or returned. *)
Theorem simulate_paths_ignores_junk (junk1 junk2 shocks : nat -> nat -> R)
    (p : MonteCarloParameters) :
  simulate_paths junk1 shocks p = simulate_paths junk2 shocks p /\
  forall payoff : list (list R) -> list pyvalue,
    monte_carlo_price junk1 shocks p payoff = monte_carlo_price junk2 shocks p payoff.
Proof.
  assert (Hsame : simulate_paths junk1 shocks p = simulate_paths junk2 shocks p).
  { destruct (validate p) as [e|[]] eqn:Hv.
    - unfold simulate_paths. rewrite Hv. reflexivity.
    - unfold simulate_paths. rewrite Hv. cbn [bind Monad_either].
      destruct (default_rng (seed p)) as [e|[]]; [reflexivity|].
      destruct (float_div (time p) (IZR (steps p))) as [e|dt] eqn:Hdt; [reflexivity|].
      pose proof (path_matrix_ignores_junk junk1 junk2 shocks p Hv) as Hm.
      unfold path_matrix in Hm. cbv zeta in Hm.
      assert (Hs : IZR (steps p) <> 0).
      { apply validate_paths_inr in Hv. destruct Hv as (_ & _ & _ & _ & Hs).
        apply not_0_IZR. lia. }
      rewrite (float_div_ok _ _ Hs) in Hdt. injection Hdt as <-.
      cbn [ret Monad_either]. f_equal. exact Hm. }
  split; [exact Hsame|].
  intros payoff. unfold monte_carlo_price. rewrite Hsame. reflexivity.
Qed.

(** ** Without volatility *)

Lemma forward_path_length (p : MonteCarloParameters) :
  List.length (forward_path p) = (Z.to_nat (steps p) + 1)%nat.
Proof. unfold forward_path. rewrite length_map, length_seq. reflexivity. Qed.

Lemma forward_path_item (p : MonteCarloParameters) (c : nat) :
  (c <= Z.to_nat (steps p))%nat ->
  item (forward_path p) c
  = spot p * exp (INR c * ((rate p - dividend_yield p) * (time p / IZR (steps p)))).
Proof.
  intros Hc. unfold forward_path.
  rewrite (item_map_seq
             (fun k => spot p * exp (INR k * ((rate p - dividend_yield p)
                                              * (time p / IZR (steps p))))))
    by lia.
  reflexivity.
Qed.

Lemma zero_volatility_rows (junk shocks : nat -> nat -> R) (p : MonteCarloParameters) :
  validate p = inr tt -> volatility p = 0 ->
  Forall (fun row => row = forward_path p) (path_matrix junk shocks p).
Proof.
  intros Hv Hvol.
  destruct (path_matrix_tracks junk shocks p Hv) as (Hrows & Htrack).
  pose proof (proj1 (validate_paths_inr p) Hv) as (_ & _ & _ & Hp & Hs).
  apply Forall_nth. intros i d Hi.
  rewrite (nth_indep _ d []) by exact Hi.
  destruct (Htrack i ltac:(lia)) as (Hlen & Hval).
  apply (nth_ext _ _ 0 0).
  - rewrite Hlen, forward_path_length. lia.
  - intros c Hc. rewrite Hlen in Hc.
    change (item (nth i (path_matrix junk shocks p) []) c = item (forward_path p) c).
    rewrite Hval, forward_path_item by lia.
    unfold gbm_price, step_drift, step_diffusion. rewrite Hvol.
    f_equal. f_equal. ring.
Qed.

(** With zero volatility, which validation accepts, every path is the
    deterministic forward path whatever the draws are, and its last entry
    is spot * exp((rate - dividend_yield) * time). *)
Theorem zero_volatility_paths (junk shocks : nat -> nat -> R)
    (p : MonteCarloParameters) :
  validate p = inr tt -> seed_accepted p -> volatility p = 0 ->
  exists m : list (list R),
    simulate_paths junk shocks p = inr m /\
    Forall (fun row => row = forward_path p) m /\
    item (forward_path p) (Z.to_nat (steps p))
    = spot p * exp ((rate p - dividend_yield p) * time p).
Proof.
  intros Hv Hseed Hvol. exists (path_matrix junk shocks p).
  split; [apply simulate_paths_returns; assumption|].
  split; [apply zero_volatility_rows; assumption|].
  rewrite forward_path_item by lia.
  pose proof (proj1 (validate_paths_inr p) Hv) as (_ & _ & _ & _ & Hs).
  rewrite INR_IZR_INZ, Z2Nat.id by lia.
  f_equal. f_equal. field. apply not_0_IZR. lia.
Qed.

(** ** The estimator as a function of the payoff *)







(** *** Sample runs *)

Lemma validate_calm_paths : validate calm_paths = inr tt.
Proof. apply validate_paths_inr. simpl. repeat split; try lra; lia. Qed.

Lemma seed_calm_paths : seed_accepted calm_paths.
Proof. exact I. Qed.



Lemma zero_volatility_paths_witness :
  validate calm_paths = inr tt /\ seed_accepted calm_paths /\ volatility calm_paths = 0 /\
  exists m : list (list R),
    simulate_paths no_shock no_shock calm_paths = inr m /\
    Forall (fun row => row = forward_path calm_paths) m /\
    item (forward_path calm_paths) (Z.to_nat (steps calm_paths))
    = spot calm_paths
      * exp ((rate calm_paths - dividend_yield calm_paths) * time calm_paths).
Proof.
  split; [exact validate_calm_paths|]. split; [exact seed_calm_paths|].
  split; [reflexivity|].
  apply (zero_volatility_paths no_shock no_shock calm_paths).
  - exact validate_calm_paths.
  - exact seed_calm_paths.
  - reflexivity.
Defined.


End simulation_facts.
